(** * EchoMe: the firmware control loop and the photo application's
      signal conditioner

    A shallow embedding of [firmware.c] (the Arduino control loop: presence
    gates, breathing effect, memory game) and of [PhotoApp/Form1.cs] (the
    serial-line signal conditioner and the slideshow it drives), each
    followed by the properties of its state machine; a last part evaluates
    the expression of the breathing pulse over the real numbers.

    Conventions.
    - The [int] variables of the game hold values between 0 and 15 in every
      reachable state (lemma [Firmware.loop_preserves_inv]); they are
      modelled as [Z] and the bound is proved, not assumed.
    - [float] and [double] values are binary64 numbers ([PrimFloat]); every
      32-bit [float] of the firmware is one of them, and comparisons agree.
      The firmware's arithmetic on [float] is not modelled: the distance
      samples are inputs and the pulse of the breathing effect is a
      parameter.
    - [unsigned long] clock values are [Z] with the 32-bit wrap-around of
      the subtraction written out ([Firmware.elapsed]).
    - [millis()], [DateTime.UtcNow], the distance sensors and the buttons are
      inputs: every reading the code performs is an argument of the function
      that performs it.
    - What the code writes to pins, the speaker, the serial port and the LED
      strips is collected in a trace of [Firmware.event]s, in program order.
    - An array read outside its bounds has no defined behaviour in C: the
      model of such a read fails ([None]). *)

From Stdlib Require Import ZArith List Bool String Ascii Lia Floats.
From Stdlib Require Reals Lra.
Import ListNotations.
Local Open Scope Z_scope.

(* ================================================================== *)
(** * Part I: firmware.c *)
(* ================================================================== *)

Module Firmware.

(** ** Pins, notes, outputs *)

(** Digital pins [D n] and analog pins [An n] ([A0] .. [A6] of the board
    header). *)
Inductive pin : Type :=
| D (n : Z)
| An (n : Z).

Definition NOTE_C : Z := 262.
Definition NOTE_D : Z := 294.
Definition NOTE_E : Z := 330.
Definition NOTE_F : Z := 349.
Definition NOTE_G : Z := 392.
Definition NOTE_A : Z := 440.

Definition LED_COUNT_A : Z := 5.
Definition LED_COUNT_B : Z := 5.

Definition SPEAKER_PIN : pin := An 5.

Definition buttonPins : list pin := [D 12; D 10; D 8; D 4; An 1; An 3].
Definition ledPins : list pin := [D 11; D 9; D 5; An 0; An 2; An 4].
Definition notes : list Z := [NOTE_C; NOTE_D; NOTE_E; NOTE_F; NOTE_G; NOTE_A].

Definition HIGH : bool := true.
Definition LOW : bool := false.

Inductive strip : Type := stripA | stripB.

(** Everything the firmware sends to the outside, in program order. *)
Inductive event : Type :=
| digitalWrite (p : pin) (level : bool)
| tone (p : pin) (frequency duration : Z)
| noTone (p : pin)
| delay (ms : Z)
| Serial_print (s : string)
| Serial_println (s : string)
| Serial_println_int (n : Z)
| Serial_print_float (x : float) (digits : Z)
| setPixelColor (s : strip) (i : Z) (c : Z)
| strip_show (s : strip).

(** ** A writer monad with failure

    [Some (a, tr)]: the code returned [a] after producing the outputs [tr];
    [None]: the code read an array outside its bounds. *)

Definition M (A : Type) : Type := option (A * list event).

Definition ret {A : Type} (a : A) : M A := Some (a, []).

Definition bind {A B : Type} (m : M A) (k : A -> M B) : M B :=
  match m with
  | None => None
  | Some (a, tr1) =>
      match k a with
      | None => None
      | Some (b, tr2) => Some (b, tr1 ++ tr2)
      end
  end.

Definition emit (e : event) : M unit := Some (tt, [e]).

Declare Scope fw_scope.
Delimit Scope fw_scope with fw.
Notation "x <- m ;; k" := (bind m (fun x => k))
  (at level 61, m at next level, right associativity) : fw_scope.
Notation "m ;; k" := (bind m (fun _ => k))
  (at level 61, right associativity) : fw_scope.
Local Open Scope fw_scope.

(** [arr[i]] *)
Definition read {A : Type} (arr : list A) (i : Z) : M A :=
  if i <? 0 then None
  else match nth_error arr (Z.to_nat i) with
       | Some x => ret x
       | None => None
       end.

(** [for (int i = lo; i < lo + n; i++) body], threading the state [s]. *)
Fixpoint for_loop {S : Type} (lo : Z) (n : nat) (body : Z -> S -> M S) (s : S)
  : M S :=
  match n with
  | O => ret s
  | S n' => s1 <- body lo s ;; for_loop (lo + 1) n' body s1
  end.

Definition for_each (lo : Z) (n : nat) (body : Z -> M unit) : M unit :=
  for_loop lo n (fun i _ => body i) tt.

(** ** The memory game: state *)

Record game : Type := mkGame {
  turn : Z;
  currentStep : Z;
  showingSequence : bool;
  waitingForInput : bool;
  lastActionTime : Z
}.

Definition initial_game : game := mkGame 0 0 false false 0.

Definition STEP_DELAY : Z := 800.

Definition melody : list Z := [3; 3; 4; 5; 5; 4; 3; 2; 1; 1; 2; 3; 3; 2; 2].
Definition melodyLength : Z := Z.of_nat (List.length melody).

(** [a - b] on [unsigned long] (32 bits). *)
Definition elapsed (a b : Z) : Z := (a - b) mod 2 ^ 32.

(** ** The memory game: feedback sequences *)

Definition playNote (noteIndex : Z) : M unit :=
  let arrayIndex := noteIndex - 1 in
  if (0 <=? arrayIndex) && (arrayIndex <? 6) then
    led <- read ledPins arrayIndex ;;
    emit (digitalWrite led HIGH) ;;
    n <- read notes arrayIndex ;;
    emit (tone SPEAKER_PIN n 300) ;;
    emit (delay 300) ;;
    led' <- read ledPins arrayIndex ;;
    emit (digitalWrite led' LOW) ;;
    emit (noTone SPEAKER_PIN)
  else ret tt.

Definition all_leds (level : bool) : M unit :=
  for_each 0 6 (fun j => led <- read ledPins j ;; emit (digitalWrite led level)).

Definition failSequence (g : game) : M game :=
  emit (Serial_println "FAIL! Restarting...") ;;
  for_each 0 3 (fun _ =>
    all_leds HIGH ;;
    emit (tone SPEAKER_PIN NOTE_C 300) ;;
    emit (delay 400) ;;
    all_leds LOW ;;
    emit (tone SPEAKER_PIN NOTE_G 300) ;;
    emit (delay 400)) ;;
  emit (noTone SPEAKER_PIN) ;;
  emit (delay 1000) ;;
  ret (mkGame 0 0 false false (lastActionTime g)).

Definition winSequence : M unit :=
  emit (Serial_println "YOU WIN!") ;;
  all_leds HIGH ;;
  emit (tone SPEAKER_PIN NOTE_E 400) ;;
  emit (delay 500) ;;
  emit (tone SPEAKER_PIN NOTE_G 400) ;;
  emit (delay 500) ;;
  emit (tone SPEAKER_PIN NOTE_E 400) ;;
  emit (delay 500) ;;
  emit (tone SPEAKER_PIN NOTE_C 600) ;;
  emit (delay 700) ;;
  emit (noTone SPEAKER_PIN) ;;
  all_leds LOW ;;
  emit (delay 2000).

Definition playStartupMelody : M unit :=
  for_each 0 15 (fun i =>
    note <- read melody i ;;
    let noteIndex := note - 1 in
    if (0 <=? noteIndex) && (noteIndex <? 6) then
      led <- read ledPins noteIndex ;;
      emit (digitalWrite led HIGH) ;;
      n <- read notes noteIndex ;;
      emit (tone SPEAKER_PIN n 300) ;;
      emit (delay 350) ;;
      led' <- read ledPins noteIndex ;;
      emit (digitalWrite led' LOW) ;;
      emit (delay 50)
    else ret tt) ;;
  emit (delay 500).

(** ** The memory game: transitions *)

(** [t1] is the clock read by the test of the step delay, [t2] the clock
    read after the note was played. *)
Definition runMemoryGame (t1 t2 : Z) (g : game) : M game :=
  if melodyLength <=? turn g then
    winSequence ;;
    ret (mkGame 0 0 false false (lastActionTime g))
  else
    g1 <- (if negb (showingSequence g) && negb (waitingForInput g) then
             emit (Serial_print "Turn ") ;;
             emit (Serial_println_int (turn g + 1)) ;;
             ret (mkGame (turn g) 0 true (waitingForInput g) (lastActionTime g))
           else ret g) ;;
    if showingSequence g1 && (STEP_DELAY <? elapsed t1 (lastActionTime g1)) then
      if currentStep g1 <=? turn g1 then
        note <- read melody (currentStep g1) ;;
        playNote note ;;
        ret (mkGame (turn g1) (currentStep g1 + 1) (showingSequence g1)
                    (waitingForInput g1) t2)
      else
        emit (Serial_println "Your turn!") ;;
        ret (mkGame (turn g1) 0 false true (lastActionTime g1))
    else ret g1.

Definition checkGameInput (buttonPressed : Z) (g : game) : M game :=
  if negb (waitingForInput g) then ret g
  else
    expectedNote <- read melody (currentStep g) ;;
    if buttonPressed =? expectedNote then
      emit (Serial_println "Correct!") ;;
      let step' := currentStep g + 1 in
      if turn g <? step' then
        emit (Serial_println "Good! Next level...") ;;
        emit (delay 1000) ;;
        ret (mkGame (turn g + 1) step' (showingSequence g) false
                    (lastActionTime g))
      else
        ret (mkGame (turn g) step' (showingSequence g) (waitingForInput g)
                    (lastActionTime g))
    else
      emit (Serial_println "Wrong! Try again.") ;;
      failSequence g.

(** [pressed i] is the outcome of [digitalRead(buttonPins[i]) == LOW] in
    this pass. *)
Definition handleButtons (pressed : Z -> bool) (g : game) : M game :=
  for_loop 0 6 (fun i g =>
    _ <- read buttonPins i ;;
    led <- read ledPins i ;;
    emit (digitalWrite led (pressed i)) ;;
    if pressed i then
      n <- read notes i ;;
      emit (tone SPEAKER_PIN n 200) ;;
      if waitingForInput g then checkGameInput (i + 1) g else ret g
    else ret g) g.

(** ** Presence gates and LED strips *)

Definition THRESH_CM : float := 3.0%float.

(** The condition of both gates in [runUltrasonicSensing]:
    [!isnan(d) && d > THRESH_CM].  A sample that timed out is NaN. *)
Definition classify (d : float) : bool :=
  negb (PrimFloat.is_nan d) && (THRESH_CM <? d)%float.

(** The globals of the breathing effect and of the distance report.  The
    pixel buffers belong to the strip objects of the LED library: what the
    firmware asks of them is in the trace. *)
Record display : Type := mkDisplay {
  val : float;
  hue : Z;
  sat : Z;
  lastBreathUpdate : Z;
  lastPrint : Z
}.

Definition valueMin : float := 120.0%float.
Definition valueMax : float := 255.0%float.
Definition hueA : Z := 15.
Definition satA : Z := 230.
Definition hueB : Z := 95.
Definition satB : Z := 255.
Definition BREATH_INTERVAL : Z := 30.

Definition initial_display : display := mkDisplay valueMin hueA satA 0 0.

Definition clearStrip (s : strip) (n : Z) : M unit :=
  for_each 0 (Z.to_nat n) (fun i => emit (setPixelColor s i 0)) ;;
  emit (strip_show s).

(** Conversion to [uint8_t]. *)
Definition to_byte (x : Z) : Z := x mod 256.

(** [Adafruit_NeoPixel::Color(r, g, b)], arguments [uint8_t]. *)
Definition Color (r g b : Z) : Z :=
  Z.lor (Z.lor (Z.shiftl (to_byte r) 16) (Z.shiftl (to_byte g) 8)) (to_byte b).

(** Arduino's [map] on [long]; [/] of C truncates. *)
Definition map_range (x in_min in_max out_min out_max : Z) : Z :=
  Z.quot ((x - in_min) * (out_max - out_min)) (in_max - in_min) + out_min.

Definition colorWheel (pos : Z) : Z :=
  let pos := to_byte (255 - pos) in
  if pos <? 85 then Color (255 - pos * 3) 0 (pos * 3)
  else if pos <? 170 then
    let pos := to_byte (pos - 85) in Color 0 (pos * 3) (255 - pos * 3)
  else
    let pos := to_byte (pos - 170) in Color (pos * 3) (255 - pos * 3) 0.

Definition showRainbowStatic (s : strip) (n : Z) : M unit :=
  for_each 0 (Z.to_nat n) (fun i =>
    let pos := to_byte (i * Z.quot 255 (Z.max 1 (n - 1))) in
    emit (setPixelColor s i (colorWheel pos))) ;;
  emit (strip_show s).

Definition colorWheelBreathing (hue sat val : Z) : Z :=
  let hue := to_byte (255 - hue) in
  if hue <? 85 then
    Color (map_range val 0 255 0 (255 - hue * 3))
          (map_range val 0 255 0 0)
          (map_range val 0 255 0 (hue * 3))
  else if hue <? 170 then
    let hue := to_byte (hue - 85) in
    Color (map_range val 0 255 0 0)
          (map_range val 0 255 0 (hue * 3))
          (map_range val 0 255 0 (255 - hue * 3))
  else
    let hue := to_byte (hue - 170) in
    Color (map_range val 0 255 0 (hue * 3))
          (map_range val 0 255 0 (255 - hue * 3))
          (map_range val 0 255 0 0).

(** Conversion of a [float] to an integer type: the fraction is dropped.
    C leaves the conversion of NaN and of infinities undefined; the model
    gives 0 there. *)
Definition float_to_long (x : float) : Z :=
  match Prim2SF x with
  | S754_finite s m e =>
      let a := if 0 <=? e then Z.pos m * 2 ^ e else Z.pos m / 2 ^ (- e) in
      if s then - a else a
  | _ => 0
  end.

Section Display.

(** The pulse of line 162-163,
    [valueMin + (exp(sin(pulseSpeed * t / 2000.0 * PI)) - 0.36787944) * delta],
    as the C library's [exp] and [sin] compute it in floating point at
    clock [t]. *)
Variable envelope : Z -> float.

(** [t1]: the clock read by the test of the interval; [t2]: the clock of the
    pulse; [t3]: the clock stored in [lastBreathUpdate]. *)
Definition showBreathingEffect (s : strip) (numLeds : Z) (t1 t2 t3 : Z)
    (d : display) : M display :=
  if BREATH_INTERVAL <? elapsed t1 (lastBreathUpdate d) then
    let val' := envelope t2 in
    let hue' := to_byte (map_range (float_to_long val')
                  (float_to_long valueMin) (float_to_long valueMax) hueA hueB) in
    let sat' := to_byte (map_range (float_to_long val')
                  (float_to_long valueMin) (float_to_long valueMax) satA satB) in
    let color := colorWheelBreathing hue' sat' (to_byte (float_to_long val')) in
    for_each 0 (Z.to_nat numLeds) (fun i => emit (setPixelColor s i color)) ;;
    emit (strip_show s) ;;
    ret (mkDisplay val' hue' sat' t3 (lastPrint d))
  else ret d.

Definition printDistance (cm : float) : M unit :=
  if PrimFloat.is_nan cm then emit (Serial_print "—")
  else emit (Serial_print_float cm 2) ;; emit (Serial_print " cm").

(** The clock readings of one pass of [loop], in the order of the code. *)
Record clocks : Type := mkClocks {
  tBreathTest : Z;     (* showBreathingEffect: interval test *)
  tBreathPulse : Z;    (* showBreathingEffect: argument of the pulse *)
  tBreathDone : Z;     (* showBreathingEffect: lastBreathUpdate *)
  tPrintTest : Z;      (* runUltrasonicSensing: lastPrint test *)
  tPrintDone : Z;      (* runUltrasonicSensing: lastPrint *)
  tStepTest : Z;       (* runMemoryGame: step delay test *)
  tStepDone : Z        (* runMemoryGame: lastActionTime *)
}.

(** The distance report at the end of [runUltrasonicSensing]. *)
Definition report (dA dB : float) (c : clocks) (d : display) : M display :=
  if 2000 <? elapsed (tPrintTest c) (lastPrint d) then
    emit (Serial_print "A: ") ;; printDistance dA ;;
    emit (Serial_print " | B: ") ;; printDistance dB ;;
    emit (Serial_println "") ;;
    ret (mkDisplay (val d) (hue d) (sat d) (lastBreathUpdate d) (tPrintDone c))
  else ret d.

(** [dA], [dB]: what [readDistanceSinglePin] and [readDistanceTrigEcho]
    returned in this pass. *)
Definition runUltrasonicSensing (dA dB : float) (c : clocks) (d : display)
  : M display :=
  d1 <- (if classify dA then
           showBreathingEffect stripA LED_COUNT_A
             (tBreathTest c) (tBreathPulse c) (tBreathDone c) d
         else clearStrip stripA LED_COUNT_A ;; ret d) ;;
  (if classify dB then showRainbowStatic stripB LED_COUNT_B
   else clearStrip stripB LED_COUNT_B) ;;
  report dA dB c d1.

(** ** The control loop *)

Record inputs : Type := mkInputs {
  dA : float;
  dB : float;
  pressed : Z -> bool;
  clk : clocks
}.

Record sys : Type := mkSys {
  gm : game;
  ds : display
}.

Definition initial_sys : sys := mkSys initial_game initial_display.

Definition loop (i : inputs) (s : sys) : M sys :=
  d1 <- runUltrasonicSensing (dA i) (dB i) (clk i) (ds s) ;;
  g1 <- handleButtons (pressed i) (gm s) ;;
  g2 <- runMemoryGame (tStepTest (clk i)) (tStepDone (clk i)) g1 ;;
  emit (delay 50) ;;
  ret (mkSys g2 d1).

(** A run of the control loop: one pass per element of [ins]. *)
Fixpoint run (ins : list inputs) (s : sys) : M sys :=
  match ins with
  | [] => ret s
  | i :: ins' => s1 <- loop i s ;; run ins' s1
  end.

End Display.

(** ** Named traces and states used by the statements *)

Definition leds_events (level : bool) : list event :=
  map (fun p => digitalWrite p level) ledPins.

(** One repetition of the failure pattern: all LEDs on with the first tone,
    then all LEDs off with the second tone. *)
Definition fail_flash : list event :=
  leds_events HIGH ++ [tone SPEAKER_PIN NOTE_C 300; delay 400] ++
  leds_events LOW ++ [tone SPEAKER_PIN NOTE_G 300; delay 400].

Definition fail_trace : list event :=
  [Serial_println "FAIL! Restarting..."] ++
  fail_flash ++ fail_flash ++ fail_flash ++
  [noTone SPEAKER_PIN; delay 1000].

Definition win_trace : list event :=
  [Serial_println "YOU WIN!"] ++ leds_events HIGH ++
  [tone SPEAKER_PIN NOTE_E 400; delay 500;
   tone SPEAKER_PIN NOTE_G 400; delay 500;
   tone SPEAKER_PIN NOTE_E 400; delay 500;
   tone SPEAKER_PIN NOTE_C 600; delay 700;
   noTone SPEAKER_PIN] ++ leds_events LOW ++ [delay 2000].

(** All five pixels of a strip set to one colour, then shown. *)
Definition frame_trace (s : strip) (c : Z) : list event :=
  [setPixelColor s 0 c; setPixelColor s 1 c; setPixelColor s 2 c;
   setPixelColor s 3 c; setPixelColor s 4 c; strip_show s].

(** All pixels off. *)
Definition clear_trace (s : strip) : list event := frame_trace s 0.

Definition rainbow_trace (s : strip) : list event :=
  [setPixelColor s 0 (colorWheel 0); setPixelColor s 1 (colorWheel 63);
   setPixelColor s 2 (colorWheel 126); setPixelColor s 3 (colorWheel 189);
   setPixelColor s 4 (colorWheel 252); strip_show s].

(** The colour of the breathing frame computed at clock [t], and the
    globals after that frame. *)
Definition breath_color (envelope : Z -> float) (t : Z) : Z :=
  let v := float_to_long (envelope t) in
  colorWheelBreathing
    (to_byte (map_range v (float_to_long valueMin) (float_to_long valueMax) hueA hueB))
    (to_byte (map_range v (float_to_long valueMin) (float_to_long valueMax) satA satB))
    (to_byte v).

Definition breath_state (envelope : Z -> float) (t2 t3 : Z) (d : display)
  : display :=
  let v := float_to_long (envelope t2) in
  mkDisplay (envelope t2)
    (to_byte (map_range v (float_to_long valueMin) (float_to_long valueMax) hueA hueB))
    (to_byte (map_range v (float_to_long valueMin) (float_to_long valueMax) satA satB))
    t3 (lastPrint d).

(** The events of a trace that address the strip [s]. *)
Definition on_strip (s : strip) (e : event) : bool :=
  match e, s with
  | setPixelColor stripA _ _, stripA | strip_show stripA, stripA => true
  | setPixelColor stripB _ _, stripB | strip_show stripB, stripB => true
  | _, _ => false
  end.

Definition strip_events (s : strip) (tr : list event) : list event :=
  filter (on_strip s) tr.

(** Level 0, step 0, mode Idle; the time stamp is not touched by a reset. *)
Definition reset_game (g : game) : game :=
  mkGame 0 0 false false (lastActionTime g).

(** The accepted presses [bs], one call of [checkGameInput] each. *)
Fixpoint presses (bs : list Z) (g : game) : M game :=
  match bs with
  | [] => ret g
  | b :: bs' => g1 <- checkGameInput b g ;; presses bs' g1
  end.

(** A player who never errs: while the game awaits input, exactly the button
    of the expected note is down; the clock has always run past the step
    delay; the sensors get no echo. *)
Definition perfect_inputs (s : sys) : inputs :=
  let g := gm s in
  mkInputs PrimFloat.nan PrimFloat.nan
    (fun i => waitingForInput g &&
              (nth (Z.to_nat (currentStep g)) melody 0 =? i + 1))
    (mkClocks 0 0 0 0 0 (lastActionTime g + 801) (lastActionTime g + 1101)).

Fixpoint autoplay (envelope : Z -> float) (n : nat) (s : sys) : M sys :=
  match n with
  | O => ret s
  | S n' => s1 <- loop envelope (perfect_inputs s) s ;; autoplay envelope n' s1
  end.

(** The inputs of that player along [n] passes. *)
Fixpoint autoplay_inputs (envelope : Z -> float) (n : nat) (s : sys)
  : list inputs :=
  match n with
  | O => []
  | S n' =>
      let i := perfect_inputs s in
      match loop envelope i s with
      | Some (s1, _) => i :: autoplay_inputs envelope n' s1
      | None => [i]
      end
  end.

(** The levels announced on the serial port ("Turn n"), and the number of
    completed levels and of wins, as a trace shows them. *)
Definition announced (tr : list event) : list Z :=
  flat_map (fun e => match e with Serial_println_int n => [n] | _ => [] end) tr.

Definition count_println (msg : string) (tr : list event) : nat :=
  List.length (filter (fun e => match e with
                                | Serial_println m => String.eqb m msg
                                | _ => false
                                end) tr).

(** Levels completed, wins and wrong presses, as the serial port reports
    them. *)
Definition completed (tr : list event) : Z :=
  Z.of_nat (count_println "Good! Next level..." tr).

Definition wins (tr : list event) : Z :=
  Z.of_nat (count_println "YOU WIN!" tr).

Definition wrong (tr : list event) : Z :=
  Z.of_nat (count_println "Wrong! Try again." tr).

(** The invariant of the game state. *)
Definition game_inv (g : game) : Prop :=
  0 <= turn g <= melodyLength /\
  0 <= currentStep g <= melodyLength /\
  (waitingForInput g = true ->
     currentStep g <= turn g /\ turn g < melodyLength /\
     showingSequence g = false) /\
  (showingSequence g = true ->
     currentStep g <= turn g + 1 /\ turn g < melodyLength /\
     waitingForInput g = false).



(** [m] returns [a] with trace [tr] such that [P a tr]. *)
Definition yields {A : Type} (P : A -> list event -> Prop) (m : M A) : Prop :=
  exists a tr, m = Some (a, tr) /\ P a tr.

(** [m] returns, and what it returns satisfies [P]. *)
Definition returns {A : Type} (P : A -> Prop) (m : M A) : Prop :=
  exists a tr, m = Some (a, tr) /\ P a.

(** ** Reasoning about the monad *)

Lemma bind_Some {A B : Type} (m : M A) (k : A -> M B) (b : B) (tr : list event) :
  bind m k = Some (b, tr) <->
  exists a tr1 tr2, m = Some (a, tr1) /\ k a = Some (b, tr2) /\ tr = tr1 ++ tr2.
Proof.
  unfold bind. split.
  - destruct m as [[a tr1]|]; [|discriminate].
    destruct (k a) as [[b' tr2]|] eqn:Hk; [|discriminate].
    intros H. injection H as <- <-. exists a, tr1, tr2. auto.
  - intros (a & tr1 & tr2 & -> & Hk & ->). rewrite Hk. reflexivity.
Qed.

Lemma bind_pure {A B : Type} (a : A) (k : A -> M B) :
  bind (Some (a, [])) k = k a.
Proof. unfold bind. destruct (k a) as [[b tr]|]; reflexivity. Qed.

Lemma returns_ret {A : Type} (P : A -> Prop) (a : A) : P a -> returns P (ret a).
Proof. intros H. exists a, []. auto. Qed.

Lemma returns_emit (P : unit -> Prop) (e : event) : P tt -> returns P (emit e).
Proof. intros H. exists tt, [e]. auto. Qed.

Lemma returns_bind {A B : Type} (Q : A -> Prop) (P : B -> Prop)
    (m : M A) (k : A -> M B) :
  returns Q m -> (forall a, Q a -> returns P (k a)) -> returns P (bind m k).
Proof.
  intros (a & tr1 & -> & Ha) Hk.
  destruct (Hk a Ha) as (b & tr2 & Hb & HP).
  exists b, (tr1 ++ tr2). split; [|exact HP].
  unfold bind. rewrite Hb. reflexivity.
Qed.

Lemma returns_weaken {A : Type} (P Q : A -> Prop) (m : M A) :
  returns P m -> (forall a, P a -> Q a) -> returns Q m.
Proof. intros (a & tr & -> & Ha) H. exists a, tr. auto. Qed.

Lemma returns_read {A : Type} (arr : list A) (i : Z) :
  0 <= i < Z.of_nat (List.length arr) ->
  returns (fun x => nth_error arr (Z.to_nat i) = Some x) (read arr i).
Proof.
  intros Hi. unfold read.
  destruct (i <? 0) eqn:Hneg; [apply Z.ltb_lt in Hneg; lia|].
  destruct (nth_error arr (Z.to_nat i)) as [x|] eqn:Hx.
  - apply returns_ret. reflexivity.
  - apply nth_error_None in Hx. lia.
Qed.

Lemma returns_for_loop {S : Type} (P : S -> Prop) (body : Z -> S -> M S) :
  forall (n : nat) (lo : Z) (s : S),
    (forall i s, lo <= i < lo + Z.of_nat n -> P s -> returns P (body i s)) ->
    P s -> returns P (for_loop lo n body s).
Proof.
  induction n as [|n IH]; intros lo s Hbody Hs; simpl.
  - apply returns_ret. exact Hs.
  - apply returns_bind with (Q := P).
    + apply Hbody; [lia|exact Hs].
    + intros s1 Hs1. apply IH; [|exact Hs1].
      intros i s2 Hi. apply Hbody. lia.
Qed.

(** One step of a proof that a computation returns. *)
Ltac returns_step :=
  lazymatch goal with
  | |- returns _ (bind (emit _) _) =>
      apply returns_bind with (Q := fun _ => True);
      [apply returns_emit; exact I | intros _ _]
  | |- returns _ (bind (read _ _) _) =>
      eapply returns_bind;
      [apply returns_read; simpl; lia | intros ? _]
  | |- returns _ (emit _) => apply returns_emit
  | |- returns _ (ret _) => apply returns_ret
  end.

(** ** The feedback sequences are fixed traces *)

Lemma failSequence_eq (g : game) :
  failSequence g = Some (reset_game g, fail_trace).
Proof. reflexivity. Qed.

Lemma winSequence_eq : winSequence = Some (tt, win_trace).
Proof. reflexivity. Qed.

Lemma melody_entries : Forall (fun n => 1 <= n <= 6) melody.
Proof. unfold melody. repeat constructor; lia. Qed.

Lemma melodyLength_eq : melodyLength = 15.
Proof. reflexivity. Qed.

Lemma read_melody (i : Z) :
  0 <= i < melodyLength ->
  exists n, read melody i = Some (n, []) /\
            nth_error melody (Z.to_nat i) = Some n /\ 1 <= n <= 6.
Proof.
  intros Hi.
  destruct (returns_read melody i Hi) as (n & tr & Hr & Hn).
  assert (Htr : tr = []).
  { unfold read in Hr. destruct (i <? 0); [discriminate|].
    rewrite Hn in Hr. injection Hr as <-. reflexivity. }
  subst tr. exists n. repeat split; auto;
    pose proof melody_entries as HF; rewrite Forall_forall in HF;
    apply nth_error_In in Hn; apply HF in Hn; lia.
Qed.

(** [playNote] returns for every argument: its guard keeps both array reads
    inside the six entries. *)
Lemma playNote_returns (noteIndex : Z) : returns (fun _ => True) (playNote noteIndex).
Proof.
  unfold playNote.
  destruct ((0 <=? noteIndex - 1) && (noteIndex - 1 <? 6)) eqn:Hg.
  - apply andb_true_iff in Hg. destruct Hg as [H0 H6].
    apply Z.leb_le in H0. apply Z.ltb_lt in H6.
    repeat returns_step; exact I.
  - apply returns_ret. exact I.
Qed.

(** ** The invariant is kept by every transition of the game *)

Lemma game_inv_initial : game_inv initial_game.
Proof. unfold game_inv, initial_game; simpl. rewrite melodyLength_eq. repeat split; try lia; discriminate. Qed.

Lemma game_inv_reset (g : game) : game_inv (reset_game g).
Proof. unfold game_inv, reset_game; simpl. rewrite melodyLength_eq. repeat split; try lia; discriminate. Qed.

Lemma checkGameInput_inv (b : Z) (g : game) :
  game_inv g -> returns game_inv (checkGameInput b g).
Proof.
  intros Hinv. unfold checkGameInput.
  destruct (waitingForInput g) eqn:Hw; cbn [negb].
  2: { apply returns_ret. exact Hinv. }
  destruct Hinv as (Ht & Hs & Hwait & Hshow).
  destruct (Hwait Hw) as (Hst & Htl & Hsh).
  destruct (read_melody (currentStep g)) as (n & Hr & _ & _); [lia|].
  rewrite Hr. cbn [bind].
  destruct (b =? n).
  - cbn [emit bind app].
    destruct (turn g <? currentStep g + 1) eqn:Hlast; cbn [emit bind ret app].
    + apply Z.ltb_lt in Hlast. eexists _, _. split; [reflexivity|].
      unfold game_inv; simpl. rewrite Hsh.
      repeat split; try lia; discriminate.
    + apply Z.ltb_ge in Hlast. eexists _, _. split; [reflexivity|].
      unfold game_inv; simpl. rewrite Hsh.
      repeat split; try lia; discriminate.
  - rewrite failSequence_eq. cbn [emit bind app].
    eexists _, _. split; [reflexivity|]. apply game_inv_reset.
Qed.

Lemma handleButtons_inv (pressed : Z -> bool) (g : game) :
  game_inv g -> returns game_inv (handleButtons pressed g).
Proof.
  intros Hinv. unfold handleButtons.
  apply returns_for_loop; [|exact Hinv].
  intros i g1 Hi Hg1.
  eapply returns_bind; [apply returns_read; simpl; lia | intros _ _].
  eapply returns_bind; [apply returns_read; simpl; lia | intros led _].
  returns_step.
  destruct (pressed i).
  - eapply returns_bind; [apply returns_read; simpl; lia | intros note _].
    returns_step.
    destruct (waitingForInput g1).
    + apply checkGameInput_inv. exact Hg1.
    + apply returns_ret. exact Hg1.
  - apply returns_ret. exact Hg1.
Qed.

(** The terminal check: with every level completed, [runMemoryGame] plays
    the win sequence and resets the game. *)
Lemma terminal_check (t1 t2 : Z) (g : game) :
  melodyLength <= turn g ->
  runMemoryGame t1 t2 g = Some (reset_game g, win_trace).
Proof.
  intros H. unfold runMemoryGame.
  apply Z.leb_le in H. rewrite H. reflexivity.
Qed.

Lemma runMemoryGame_inv (t1 t2 : Z) (g : game) :
  game_inv g -> returns game_inv (runMemoryGame t1 t2 g).
Proof.
  intros Hinv.
  destruct (Z.le_gt_cases melodyLength (turn g)) as [Hwin|Hplay].
  { rewrite terminal_check by exact Hwin.
    eexists _, _. split; [reflexivity|]. apply game_inv_reset. }
  unfold runMemoryGame.
  destruct (melodyLength <=? turn g) eqn:Hle; [apply Z.leb_le in Hle; lia|].
  apply returns_bind with (Q := game_inv).
  - destruct (negb (showingSequence g) && negb (waitingForInput g)) eqn:Hidle.
    + apply andb_true_iff in Hidle. destruct Hidle as [Hs Hw].
      apply negb_true_iff in Hs, Hw.
      do 2 returns_step. apply returns_ret.
      destruct Hinv as (Ht & Hc & _ & _).
      unfold game_inv; simpl. rewrite Hw.
      repeat split; try lia; discriminate.
    + apply returns_ret. exact Hinv.
  - intros g1 (Ht & Hc & Hwait & Hshow).
    destruct (showingSequence g1) eqn:Hs; simpl.
    2: { apply returns_ret. unfold game_inv. rewrite Hs. auto. }
    destruct (Hshow eq_refl) as (Hstep & Hturn & Hw).
    destruct (STEP_DELAY <? elapsed t1 (lastActionTime g1)).
    2: { apply returns_ret. unfold game_inv. rewrite Hs. auto. }
    destruct (currentStep g1 <=? turn g1) eqn:Hmore.
    + apply Z.leb_le in Hmore.
      destruct (read_melody (currentStep g1)) as (n & Hr & _ & _); [lia|].
      rewrite Hr, bind_pure.
      apply returns_bind with (Q := fun _ => True); [apply playNote_returns|].
      intros _ _. apply returns_ret.
      unfold game_inv; simpl. rewrite Hw.
      repeat split; try lia; discriminate.
    + apply Z.leb_gt in Hmore. eexists _, _. split; [reflexivity|].
      unfold game_inv; simpl.
      repeat split; try lia; discriminate.
Qed.

(** ** The display side: fixed traces, no failure *)

Lemma clearStrip_eq (s : strip) :
  clearStrip s 5 = Some (tt, clear_trace s).
Proof. reflexivity. Qed.

Lemma showRainbowStatic_eq (s : strip) :
  showRainbowStatic s 5 = Some (tt, rainbow_trace s).
Proof. reflexivity. Qed.

Lemma showBreathingEffect_eq (envelope : Z -> float) (s : strip)
    (t1 t2 t3 : Z) (d : display) :
  showBreathingEffect envelope s 5 t1 t2 t3 d =
    if BREATH_INTERVAL <? elapsed t1 (lastBreathUpdate d)
    then Some (breath_state envelope t2 t3 d,
               frame_trace s (breath_color envelope t2))
    else Some (d, []).
Proof.
  unfold showBreathingEffect.
  destruct (BREATH_INTERVAL <? elapsed t1 (lastBreathUpdate d)); reflexivity.
Qed.

Lemma printDistance_returns (cm : float) : returns (fun _ => True) (printDistance cm).
Proof.
  unfold printDistance. destruct (PrimFloat.is_nan cm); repeat returns_step; exact I.
Qed.

Lemma report_returns (dA dB : float) (c : clocks) (d : display) :
  returns (fun _ => True) (report dA dB c d).
Proof.
  unfold report. destruct (2000 <? elapsed (tPrintTest c) (lastPrint d)).
  - returns_step.
    apply returns_bind with (Q := fun _ => True); [apply printDistance_returns|].
    intros _ _. returns_step.
    apply returns_bind with (Q := fun _ => True); [apply printDistance_returns|].
    intros _ _. returns_step. apply returns_ret. exact I.
  - apply returns_ret. exact I.
Qed.

Lemma runUltrasonicSensing_returns (envelope : Z -> float) (dA dB : float)
    (c : clocks) (d : display) :
  returns (fun _ => True) (runUltrasonicSensing envelope dA dB c d).
Proof.
  unfold runUltrasonicSensing.
  apply returns_bind with (Q := fun _ => True).
  { destruct (classify dA).
    - change LED_COUNT_A with 5. rewrite showBreathingEffect_eq.
      destruct (BREATH_INTERVAL <? _); eexists _, _; split; reflexivity || exact I.
    - eexists _, _; split; reflexivity || exact I. }
  intros d1 _. apply returns_bind with (Q := fun _ => True).
  { destruct (classify dB); eexists _, _; split; reflexivity || exact I. }
  intros _ _. apply report_returns.
Qed.

(** ** The control loop keeps the invariant and never fails *)

Lemma loop_preserves_inv (envelope : Z -> float) (i : inputs) (s : sys) :
  game_inv (gm s) -> returns (fun s' => game_inv (gm s')) (loop envelope i s).
Proof.
  intros Hinv. unfold loop.
  apply returns_bind with (Q := fun _ => True);
    [apply runUltrasonicSensing_returns|].
  intros d1 _.
  apply returns_bind with (Q := game_inv); [apply handleButtons_inv; exact Hinv|].
  intros g1 Hg1.
  apply returns_bind with (Q := game_inv); [apply runMemoryGame_inv; exact Hg1|].
  intros g2 Hg2. returns_step. apply returns_ret. exact Hg2.
Qed.

Lemma run_preserves_inv (envelope : Z -> float) (ins : list inputs) :
  forall s : sys,
    game_inv (gm s) -> returns (fun s' => game_inv (gm s')) (run envelope ins s).
Proof.
  induction ins as [|i ins IH]; intros s Hinv; simpl.
  - apply returns_ret. exact Hinv.
  - eapply returns_bind; [apply loop_preserves_inv; exact Hinv|].
    intros s1 Hs1. apply IH. exact Hs1.
Qed.

(** ** A correct press, and a correct prefix *)

Lemma read_of_nth {A : Type} (arr : list A) (i : Z) (x : A) :
  0 <= i -> nth_error arr (Z.to_nat i) = Some x -> read arr i = Some (x, []).
Proof.
  intros Hi Hx. unfold read.
  destruct (i <? 0) eqn:Hneg; [apply Z.ltb_lt in Hneg; lia|].
  rewrite Hx. reflexivity.
Qed.




Lemma melody_nth (k : nat) :
  (k < 15)%nat -> exists b, nth_error melody k = Some b.
Proof.
  intros Hk. destruct (nth_error melody k) as [b|] eqn:Hb; [eauto|].
  apply nth_error_None in Hb. simpl in Hb. lia.
Qed.




(** ** Accounting for the level along a run *)

Lemma count_println_app (msg : string) (tr1 tr2 : list event) :
  count_println msg (tr1 ++ tr2) =
    (count_println msg tr1 + count_println msg tr2)%nat.
Proof. unfold count_println. rewrite filter_app, length_app. reflexivity. Qed.

Lemma completed_app (tr1 tr2 : list event) :
  completed (tr1 ++ tr2) = completed tr1 + completed tr2.
Proof. unfold completed. rewrite count_println_app. lia. Qed.

Lemma wins_app (tr1 tr2 : list event) : wins (tr1 ++ tr2) = wins tr1 + wins tr2.
Proof. unfold wins. rewrite count_println_app. lia. Qed.

Lemma wrong_app (tr1 tr2 : list event) :
  wrong (tr1 ++ tr2) = wrong tr1 + wrong tr2.
Proof. unfold wrong. rewrite count_println_app. lia. Qed.

Lemma counts_nonneg (tr : list event) :
  0 <= completed tr /\ 0 <= wins tr /\ 0 <= wrong tr.
Proof. unfold completed, wins, wrong. lia. Qed.





Lemma yields_bind {A B : Type} (Q : A -> list event -> Prop)
    (P : B -> list event -> Prop) (m : M A) (k : A -> M B) :
  yields Q m ->
  (forall a tr1, Q a tr1 -> yields (fun b tr2 => P b (tr1 ++ tr2)) (k a)) ->
  yields P (bind m k).
Proof.
  intros (a & tr1 & -> & Ha) Hk.
  destruct (Hk a tr1 Ha) as (b & tr2 & Hb & HP).
  exists b, (tr1 ++ tr2). split; [|exact HP].
  unfold bind. rewrite Hb. reflexivity.
Qed.

Lemma yields_weaken {A : Type} (P Q : A -> list event -> Prop) (m : M A) :
  yields P m -> (forall a tr, P a tr -> Q a tr) -> yields Q m.
Proof. intros (a & tr & -> & Ha) H. exists a, tr. auto. Qed.

Lemma yields_for_loop {S : Type} (I : S -> list event -> Prop)
    (body : Z -> S -> M S) :
  forall (n : nat) (lo : Z) (s : S) (tr0 : list event),
    (forall i s tr, lo <= i < lo + Z.of_nat n -> I s tr ->
       yields (fun s' tr' => I s' (tr ++ tr')) (body i s)) ->
    I s tr0 ->
    yields (fun s' tr' => I s' (tr0 ++ tr')) (for_loop lo n body s).
Proof.
  induction n as [|n IH]; intros lo s tr0 Hbody Hs; cbn [for_loop].
  - exists s, []. split; [reflexivity|]. rewrite app_nil_r. exact Hs.
  - eapply yields_bind; [apply (Hbody lo s tr0); [lia|exact Hs]|].
    intros s1 tr1 Hs1. cbv beta in Hs1.
    eapply yields_weaken; [apply (IH (lo + 1) s1 (tr0 ++ tr1)); [|exact Hs1]|].
    + intros i s2 tr Hi. apply Hbody. lia.
    + intros s2 tr2 H. cbv beta in H. rewrite <- app_assoc in H. exact H.
Qed.



Lemma read_Some {A : Type} (arr : list A) (i : Z) :
  0 <= i < Z.of_nat (List.length arr) -> exists x, read arr i = Some (x, []).
Proof.
  intros Hi. unfold read.
  destruct (i <? 0) eqn:Hneg; [apply Z.ltb_lt in Hneg; lia|].
  destruct (nth_error arr (Z.to_nat i)) as [x|] eqn:Hx;
    [exists x; reflexivity|].
  apply nth_error_None in Hx. lia.
Qed.






(** The startup melody reads all fifteen notes, inside the arrays. *)
Lemma playStartupMelody_returns :
  exists tr, playStartupMelody = Some (tt, tr) /\ List.length tr = 76%nat.
Proof. eexists. split; [vm_compute; reflexivity|reflexivity]. Qed.

Lemma autoplay_is_run (envelope : Z -> float) (n : nat) :
  forall s : sys,
    run envelope (autoplay_inputs envelope n s) s = autoplay envelope n s.
Proof.
  induction n as [|n IH]; intros s; cbn [autoplay autoplay_inputs]; [reflexivity|].
  destruct (loop envelope (perfect_inputs s) s) as [[s1 tr1]|] eqn:Hloop.
  - cbn [run]. rewrite Hloop. cbn [bind]. rewrite IH. reflexivity.
  - cbn [run]. rewrite Hloop. reflexivity.
Qed.

(** The perfect player, run through the control loop from power-up: the
    levels 1 to 15 are announced in order, fifteen levels are completed, the
    win sequence is played once, and pass 241 ends in level 0, step 0, Idle. *)
Lemma perfect_play_wins :
  exists (s : sys) (tr : list event),
    autoplay (fun _ => valueMin) 241 initial_sys = Some (s, tr) /\
    announced tr = [1; 2; 3; 4; 5; 6; 7; 8; 9; 10; 11; 12; 13; 14; 15] /\
    count_println "Good! Next level..." tr = 15%nat /\
    count_println "YOU WIN!" tr = 1%nat /\
    count_println "Wrong! Try again." tr = 0%nat /\
    turn (gm s) = 0 /\ currentStep (gm s) = 0 /\
    showingSequence (gm s) = false /\ waitingForInput (gm s) = false.
Proof.
  destruct (autoplay (fun _ => valueMin) 241 initial_sys) as [[s tr]|] eqn:Hrun;
    [|vm_compute in Hrun; discriminate].
  exists s, tr. split; [reflexivity|].
  vm_compute in Hrun. injection Hrun as <- <-.
  vm_compute. repeat split.
Qed.

(** ** The claims on the memory game *)



(** C4.  In AwaitingInput, an accepted press that differs from
    [melody[currentStep]] prints the failure messages, flashes all LEDs on
    and off three times with the two tones, and resets the game to level 0,
    step 0, Idle. *)
Theorem wrong_press_fails_and_resets (g : game) (buttonPressed expected : Z) :
  waitingForInput g = true ->
  read melody (currentStep g) = Some (expected, []) ->
  buttonPressed <> expected ->
  checkGameInput buttonPressed g =
    Some (mkGame 0 0 false false (lastActionTime g),
          [Serial_println "Wrong! Try again.";
           Serial_println "FAIL! Restarting..."] ++
          fail_flash ++ fail_flash ++ fail_flash ++
          [noTone SPEAKER_PIN; delay 1000]).
Proof.
  intros Hw Hr Hne. unfold checkGameInput. rewrite Hw. cbn [negb].
  rewrite Hr, bind_pure.
  destruct (buttonPressed =? expected) eqn:Heq;
    [apply Z.eqb_eq in Heq; contradiction|].
  rewrite failSequence_eq. reflexivity.
Qed.

(** Level 3 (four notes), fourth input: the melody expects note 5, the
    player presses button 1. *)
Lemma wrong_press_fails_and_resets_witness :
  checkGameInput 1 (mkGame 3 3 false true 777) =
    Some (mkGame 0 0 false false 777,
          [Serial_println "Wrong! Try again.";
           Serial_println "FAIL! Restarting..."] ++
          fail_flash ++ fail_flash ++ fail_flash ++
          [noTone SPEAKER_PIN; delay 1000]).
Proof.
  apply (wrong_press_fails_and_resets (mkGame 3 3 false true 777) 1 5);
    [reflexivity | reflexivity | discriminate].
Defined.

(** C10.  Every run of the control loop from power-up returns: no array is
    read outside its bounds.  In the state it reaches, whenever the game
    awaits input, [0 <= currentStep <= turn < 15], so [melody[currentStep]]
    is an entry of the melody.  Every entry of the melody is between 1 and 6,
    and for such an entry [playNote] reads [ledPins] and [notes] inside
    their six entries and plays the note. *)
Theorem melody_lookup_in_bounds (envelope : Z -> float) (ins : list inputs) :
  (exists (s : sys) (tr : list event),
     run envelope ins initial_sys = Some (s, tr) /\
     (waitingForInput (gm s) = true ->
        0 <= currentStep (gm s) <= turn (gm s) /\ turn (gm s) < 15 /\
        exists note, read melody (currentStep (gm s)) = Some (note, []))) /\
  Forall (fun n => 1 <= n <= 6) melody /\
  (forall n, In n melody ->
     exists led freq,
       nth_error ledPins (Z.to_nat (n - 1)) = Some led /\
       nth_error notes (Z.to_nat (n - 1)) = Some freq /\
       playNote n = Some (tt, [digitalWrite led HIGH; tone SPEAKER_PIN freq 300;
                               delay 300; digitalWrite led LOW;
                               noTone SPEAKER_PIN])).
Proof.
  split; [|split].
  - destruct (run_preserves_inv envelope ins initial_sys game_inv_initial)
      as (s & tr & Hrun & Hinv).
    exists s, tr. split; [exact Hrun|].
    intros Hw. destruct Hinv as (Ht & Hs & Hwait & _).
    destruct (Hwait Hw) as (Hle & Hlt & _).
    rewrite melodyLength_eq in Hlt.
    destruct (read_melody (currentStep (gm s))) as (note & Hr & _);
      [rewrite melodyLength_eq; lia|].
    repeat split; try lia. exists note. exact Hr.
  - exact melody_entries.
  - intros n Hn.
    pose proof melody_entries as HF. rewrite Forall_forall in HF.
    apply HF in Hn.
    assert (Hcases : n = 1 \/ n = 2 \/ n = 3 \/ n = 4 \/ n = 5 \/ n = 6) by lia.
    destruct Hcases as [->|[->|[->|[->|[->| ->]]]]];
      eexists _, _; repeat split; reflexivity.
Qed.

(** ** The claims on the presence gates and the breathing effect *)

Lemma report_silent (dA dB : float) (c : clocks) (d : display) :
  exists d' tr,
    report dA dB c d = Some (d', tr) /\
    (forall s, strip_events s tr = []) /\
    val d' = val d /\ hue d' = hue d /\ sat d' = sat d /\
    lastBreathUpdate d' = lastBreathUpdate d.
Proof.
  unfold report, printDistance.
  destruct (2000 <? elapsed (tPrintTest c) (lastPrint d));
    [destruct (PrimFloat.is_nan dA), (PrimFloat.is_nan dB)|];
    eexists _, _; (split; [reflexivity|]);
    (split; [intros []; reflexivity | repeat split]).
Qed.

Lemma strip_events_app (s : strip) (tr1 tr2 : list event) :
  strip_events s (tr1 ++ tr2) = strip_events s tr1 ++ strip_events s tr2.
Proof. apply filter_app. Qed.

(** C5.  The gate is true exactly for a sample that is not NaN and exceeds
    3.0.  One pass of [runUltrasonicSensing] drives strip B from the latest
    sample of sensor B alone: whatever the globals, the clocks and the other
    sensor are, the strip gets the rainbow when the gate is true and is
    cleared when it is false. *)
Theorem presence_gate_latest_sample_only (envelope : Z -> float)
    (dB : float) (dA1 dA2 : float) (c1 c2 : clocks) (d1 d2 : display) :
  (classify dB = true <->
     PrimFloat.is_nan dB = false /\ (3.0 <? dB)%float = true) /\
  exists r1 tr1 r2 tr2,
    runUltrasonicSensing envelope dA1 dB c1 d1 = Some (r1, tr1) /\
    runUltrasonicSensing envelope dA2 dB c2 d2 = Some (r2, tr2) /\
    strip_events stripB tr1 = strip_events stripB tr2 /\
    strip_events stripB tr1 =
      (if classify dB then rainbow_trace stripB else clear_trace stripB).
Proof.
  split.
  { unfold classify, THRESH_CM. rewrite andb_true_iff, negb_true_iff. tauto. }
  assert (Hpass : forall dA c d, exists r tr,
            runUltrasonicSensing envelope dA dB c d = Some (r, tr) /\
            strip_events stripB tr =
              (if classify dB then rainbow_trace stripB
               else clear_trace stripB)).
  { intros dA c d. unfold runUltrasonicSensing.
    change LED_COUNT_A with 5. change LED_COUNT_B with 5.
    rewrite showBreathingEffect_eq, clearStrip_eq, showRainbowStatic_eq,
      clearStrip_eq.
    destruct (classify dA);
      [destruct (BREATH_INTERVAL <? elapsed (tBreathTest c) (lastBreathUpdate d))|];
      destruct (classify dB); cbn [bind ret];
      match goal with
      | |- context [report dA dB c ?x] =>
          destruct (report_silent dA dB c x) as (r & trR & -> & Hsil & _)
      end;
      eexists _, _; (split; [reflexivity|]);
      rewrite !strip_events_app, Hsil, app_nil_r; reflexivity. }
  destruct (Hpass dA1 c1 d1) as (r1 & tr1 & H1 & E1).
  destruct (Hpass dA2 c2 d2) as (r2 & tr2 & H2 & E2).
  exists r1, tr1, r2, tr2. repeat split; congruence.
Qed.

(** What one pass sends to strip A and does to the globals of the breathing
    effect, by the gate of sensor A and the interval test. *)
Lemma breathing_pass (envelope : Z -> float) (dA dB : float) (c : clocks)
    (d : display) :
  exists d' tr,
    runUltrasonicSensing envelope dA dB c d = Some (d', tr) /\
    (if classify dA then
       if BREATH_INTERVAL <? elapsed (tBreathTest c) (lastBreathUpdate d) then
         strip_events stripA tr =
           frame_trace stripA (breath_color envelope (tBreathPulse c)) /\
         val d' = envelope (tBreathPulse c) /\
         lastBreathUpdate d' = tBreathDone c
       else
         strip_events stripA tr = [] /\
         val d' = val d /\ hue d' = hue d /\ sat d' = sat d /\
         lastBreathUpdate d' = lastBreathUpdate d
     else
       strip_events stripA tr = clear_trace stripA /\
       val d' = val d /\ hue d' = hue d /\ sat d' = sat d /\
       lastBreathUpdate d' = lastBreathUpdate d).
Proof.
  unfold runUltrasonicSensing.
  change LED_COUNT_A with 5. change LED_COUNT_B with 5.
  rewrite showBreathingEffect_eq, clearStrip_eq, showRainbowStatic_eq,
    clearStrip_eq.
  destruct (classify dA);
    [destruct (BREATH_INTERVAL <? elapsed (tBreathTest c) (lastBreathUpdate d))|];
    destruct (classify dB); cbn [bind ret];
    match goal with
    | |- context [report dA dB c ?x] =>
        destruct (report_silent dA dB c x)
          as (r & trR & -> & Hsil & Hval & Hhue & Hsat & Hlast)
    end;
    eexists _, _; (split; [reflexivity|]);
    rewrite !strip_events_app, Hsil, app_nil_r, Hval, ?Hhue, ?Hsat, Hlast;
    repeat split.
Qed.

(** C6.  In every pass: when the gate of sensor A is false, strip A is
    cleared (all five pixels set to 0 and shown) whatever the clock and
    [lastBreathUpdate] are, and the globals of the effect are untouched; when
    the gate is true and no more than 30 ms have passed, nothing is sent to
    strip A.  So a colour update (strip A gets something other than the
    clearing frame, or the globals of the effect change) happens only if the
    gate is true and at least 30 ms have passed since [lastBreathUpdate]. *)
Theorem breathing_update_only_if_gated_and_due (envelope : Z -> float)
    (dA dB : float) (c : clocks) (d : display) :
  exists d' tr,
    runUltrasonicSensing envelope dA dB c d = Some (d', tr) /\
    (classify dA = false ->
       strip_events stripA tr = clear_trace stripA /\
       val d' = val d /\ hue d' = hue d /\ sat d' = sat d /\
       lastBreathUpdate d' = lastBreathUpdate d) /\
    (classify dA = true ->
     elapsed (tBreathTest c) (lastBreathUpdate d) <= BREATH_INTERVAL ->
       strip_events stripA tr = [] /\
       val d' = val d /\ hue d' = hue d /\ sat d' = sat d /\
       lastBreathUpdate d' = lastBreathUpdate d) /\
    (((strip_events stripA tr <> [] /\
       strip_events stripA tr <> clear_trace stripA) \/
      lastBreathUpdate d' <> lastBreathUpdate d \/ val d' <> val d) ->
       classify dA = true /\
       30 <= elapsed (tBreathTest c) (lastBreathUpdate d)).
Proof.
  destruct (breathing_pass envelope dA dB c d) as (d' & tr & Hrun & Hcase).
  exists d', tr. split; [exact Hrun|].
  destruct (classify dA).
  - destruct (BREATH_INTERVAL <? elapsed (tBreathTest c) (lastBreathUpdate d))
      eqn:Hdue.
    + apply Z.ltb_lt in Hdue. unfold BREATH_INTERVAL in *.
      split; [discriminate|]. split; [intros _ Hle; lia|].
      intros _. split; [reflexivity|lia].
    + destruct Hcase as (Hev & Hval & Hhue & Hsat & Hlast).
      split; [discriminate|]. split; [intros _ _; auto|].
      intros [[Hne _]|[Hne|Hne]]; contradiction.
  - destruct Hcase as (Hev & Hval & Hhue & Hsat & Hlast).
    split; [intros _; auto|]. split; [discriminate|].
    intros [[_ Hne]|[Hne|Hne]]; contradiction.
Qed.

(** The interval test is strict: at exactly 30 ms nothing is sent. *)
Lemma breathing_not_due_at_30 (envelope : Z -> float) :
  showBreathingEffect envelope stripA 5 1030 1030 1030
    (mkDisplay valueMin hueA satA 1000 0) =
  Some (mkDisplay valueMin hueA satA 1000 0, []).
Proof. reflexivity. Qed.

(* ------------------------------------------------------------------ *)
(** ** Further properties of the firmware *)
(* ------------------------------------------------------------------ *)

(** *** Checking a property on every value of a range *)

Definition zrange (n : nat) : list Z := map Z.of_nat (seq 0 n).

Lemma zrange_In (n : nat) (x : Z) : 0 <= x < Z.of_nat n -> In x (zrange n).
Proof.
  intros Hx. unfold zrange. rewrite in_map_iff.
  exists (Z.to_nat x). split; [lia|]. apply in_seq. lia.
Qed.

Lemma forallb_zrange (p : Z -> bool) (n : nat) :
  forallb p (zrange n) = true -> forall x, 0 <= x < Z.of_nat n -> p x = true.
Proof.
  intros H x Hx. rewrite forallb_forall in H. apply H, zrange_In, Hx.
Qed.

(** The same without a list: [p] on [lo], [lo + 1], ..., [n] values. *)
Fixpoint all_from (p : Z -> bool) (lo : Z) (n : nat) : bool :=
  match n with
  | O => true
  | S n' => p lo && all_from p (lo + 1) n'
  end.

Lemma all_from_spec (p : Z -> bool) (n : nat) :
  forall lo : Z,
    all_from p lo n = true ->
    forall x, lo <= x < lo + Z.of_nat n -> p x = true.
Proof.
  induction n as [|n IH]; intros lo H x Hx; [lia|].
  cbn [all_from] in H. apply andb_true_iff in H. destruct H as [H0 H1].
  destruct (Z.eq_dec x lo) as [->|Hne]; [exact H0|].
  apply (IH (lo + 1) H1). lia.
Qed.

(** *** Colours *)

(** The channels of a packed colour. *)
Definition red (c : Z) : Z := Z.land (Z.shiftr c 16) 255.
Definition green (c : Z) : Z := Z.land (Z.shiftr c 8) 255.
Definition blue (c : Z) : Z := Z.land c 255.

Lemma land_255 (x : Z) : Z.land x 255 = x mod 256.
Proof. change 255 with (Z.ones 8). rewrite Z.land_ones by lia. reflexivity. Qed.

Lemma byte_shiftr_8 (x : Z) : 0 <= x < 256 -> Z.shiftr x 8 = 0.
Proof.
  intros Hx. rewrite Z.shiftr_div_pow2 by lia. apply Z.div_small. simpl. lia.
Qed.

(** [Color] packs three bytes so that each channel is read back. *)
Theorem Color_channels (r g b : Z) :
  0 <= r < 256 -> 0 <= g < 256 -> 0 <= b < 256 ->
  red (Color r g b) = r /\ green (Color r g b) = g /\ blue (Color r g b) = b.
Proof.
  intros Hr Hg Hb. unfold red, green, blue, Color, to_byte.
  rewrite !(Z.mod_small _ 256) by lia.
  rewrite !Z.shiftr_lor, !Z.land_lor_distr_l, !land_255.
  repeat split.
  - rewrite Z.shiftr_shiftl_l by lia. change (16 - 16) with 0.
    rewrite Z.shiftl_0_r.
    rewrite (Z.shiftr_shiftl_r g 8 16) by lia. change (16 - 8) with 8.
    rewrite (byte_shiftr_8 g Hg).
    replace (Z.shiftr b 16) with 0.
    2:{ rewrite Z.shiftr_div_pow2 by lia. symmetry. apply Z.div_small.
        simpl. lia. }
    rewrite Z.mod_0_l by lia. rewrite !Z.lor_0_r. apply Z.mod_small. lia.
  - rewrite (Z.shiftr_shiftl_l r 16 8) by lia. change (16 - 8) with 8.
    rewrite Z.shiftr_shiftl_l by lia. change (8 - 8) with 0.
    rewrite Z.shiftl_0_r, (byte_shiftr_8 b Hb).
    rewrite Z.shiftl_mul_pow2 by lia. change (2 ^ 8) with 256.
    rewrite Z.mod_mul by lia. rewrite Z.mod_0_l by lia.
    rewrite Z.lor_0_l, Z.lor_0_r. apply Z.mod_small. lia.
  - rewrite !Z.shiftl_mul_pow2 by lia.
    change (2 ^ 16) with (256 * 256). change (2 ^ 8) with 256.
    rewrite Z.mul_assoc, !Z.mod_mul by lia.
    rewrite !Z.lor_0_l. apply Z.mod_small. lia.
Qed.

Lemma Color_channels_witness :
  red (Color 66 189 0) = 66 /\ green (Color 66 189 0) = 189 /\
  blue (Color 66 189 0) = 0.
Proof. apply (Color_channels 66 189 0); lia. Defined.

Definition colorWheel_ok (pos : Z) : bool :=
  let c := colorWheel pos in
  (red c + green c + blue c =? 255) &&
  ((red c =? 0) || (green c =? 0) || (blue c =? 0)) &&
  (c <? 2 ^ 24) && (0 <=? c).

(** X1.  For every byte [pos] the rainbow colour is a 24-bit colour on the
    edge of the colour wheel: its three channels add up to 255 and one of
    them is 0. *)
Theorem colorWheel_on_the_wheel (pos : Z) :
  0 <= pos < 256 ->
  let c := colorWheel pos in
  red c + green c + blue c = 255 /\
  (red c = 0 \/ green c = 0 \/ blue c = 0) /\
  0 <= c < 2 ^ 24.
Proof.
  intros Hpos. cbv zeta.
  assert (Hall : forallb colorWheel_ok (zrange 256) = true)
    by (vm_compute; reflexivity).
  pose proof (forallb_zrange colorWheel_ok 256 Hall pos Hpos) as H.
  unfold colorWheel_ok in H. cbv zeta in H.
  rewrite !andb_true_iff, !orb_true_iff, !Z.eqb_eq, Z.ltb_lt, Z.leb_le in H.
  tauto.
Qed.

Lemma colorWheel_on_the_wheel_witness :
  let c := colorWheel 126 in
  red c + green c + blue c = 255 /\
  (red c = 0 \/ green c = 0 \/ blue c = 0) /\
  0 <= c < 2 ^ 24.
Proof. apply (colorWheel_on_the_wheel 126). lia. Defined.

Definition breathing_ok (hue val : Z) : bool :=
  let c := colorWheelBreathing hue 0 val in
  (val - 1 <=? red c + green c + blue c) &&
  (red c + green c + blue c <=? val) &&
  ((red c =? 0) || (green c =? 0) || (blue c =? 0)).

(** X2.  For bytes [hue] and [val] the colour of the breathing effect is the
    wheel colour of [hue] dimmed to [val]: its channels add up to [val], or
    to [val - 1] by truncation, and one of them is 0.  The saturation has no
    part in it. *)
Theorem colorWheelBreathing_dims_to_val (hue sat val : Z) :
  0 <= hue < 256 -> 0 <= val < 256 ->
  let c := colorWheelBreathing hue sat val in
  val - 1 <= red c + green c + blue c <= val /\
  (red c = 0 \/ green c = 0 \/ blue c = 0) /\
  c = colorWheelBreathing hue 0 val.
Proof.
  intros Hhue Hval. cbv zeta.
  change (colorWheelBreathing hue sat val) with (colorWheelBreathing hue 0 val).
  assert (Hall : forallb (fun h => forallb (breathing_ok h) (zrange 256))
                         (zrange 256) = true) by (vm_compute; reflexivity).
  pose proof (forallb_zrange _ 256 Hall hue Hhue) as Hh. cbv beta in Hh.
  pose proof (forallb_zrange _ 256 Hh val Hval) as H.
  unfold breathing_ok in H. cbv zeta in H.
  rewrite !andb_true_iff, !orb_true_iff, !Z.eqb_eq, !Z.leb_le in H.
  repeat split; tauto.
Qed.

Lemma colorWheelBreathing_dims_to_val_witness :
  let c := colorWheelBreathing 54 242 187 in
  187 - 1 <= red c + green c + blue c <= 187 /\
  (red c = 0 \/ green c = 0 \/ blue c = 0) /\
  c = colorWheelBreathing 54 0 187.
Proof. apply (colorWheelBreathing_dims_to_val 54 242 187); lia. Defined.

(** The hue and the saturation of a frame lie between their end points. *)
Lemma breath_state_between_end_points (envelope : Z -> float)
    (t2 t3 : Z) (d : display) :
  120 <= float_to_long (envelope t2) <= 255 ->
  hueA <= hue (breath_state envelope t2 t3 d) <= hueB /\
  satA <= sat (breath_state envelope t2 t3 d) <= satB /\
  (float_to_long (envelope t2) = 120 ->
     hue (breath_state envelope t2 t3 d) = hueA /\
     sat (breath_state envelope t2 t3 d) = satA) /\
  (float_to_long (envelope t2) = 255 ->
     hue (breath_state envelope t2 t3 d) = hueB /\
     sat (breath_state envelope t2 t3 d) = satB).
Proof.
  intros Hv. unfold breath_state. cbv zeta. cbn [hue sat].
  change (float_to_long valueMin) with 120.
  change (float_to_long valueMax) with 255.
  set (v := float_to_long (envelope t2)) in *. clearbody v.
  unfold map_range, to_byte, hueA, hueB, satA, satB.
  change (255 - 120) with 135. change (95 - 15) with 80.
  change (255 - 230) with 25.
  rewrite !Z.quot_div_nonneg by lia.
  assert (H80 : 0 <= (v - 120) * 80 / 135 <= 80).
  { split; [apply Z.div_pos; lia|]. apply Z.div_le_upper_bound; lia. }
  assert (H25 : 0 <= (v - 120) * 25 / 135 <= 25).
  { split; [apply Z.div_pos; lia|]. apply Z.div_le_upper_bound; lia. }
  rewrite !Z.mod_small by lia.
  split; [lia|]. split; [lia|].
  split; intros ->; split; reflexivity.
Qed.

(** X3.  A breathing frame that is due, with the integer part of the pulse
    between [valueMin] and [valueMax]: [showBreathingEffect] draws one frame
    and stores a hue and a saturation between their two end points, the hue
    at [hueA] for 120 and at [hueB] for 255, the saturation at [satA] and
    [satB]. *)
Theorem breathing_frame_between_end_points (envelope : Z -> float)
    (s : strip) (t1 t2 t3 : Z) (d : display) :
  BREATH_INTERVAL < elapsed t1 (lastBreathUpdate d) ->
  120 <= float_to_long (envelope t2) <= 255 ->
  exists d' c,
    showBreathingEffect envelope s 5 t1 t2 t3 d = Some (d', frame_trace s c) /\
    val d' = envelope t2 /\ lastBreathUpdate d' = t3 /\
    hueA <= hue d' <= hueB /\ satA <= sat d' <= satB /\
    (float_to_long (envelope t2) = 120 -> hue d' = hueA /\ sat d' = satA) /\
    (float_to_long (envelope t2) = 255 -> hue d' = hueB /\ sat d' = satB).
Proof.
  intros Hdue Hv. rewrite showBreathingEffect_eq.
  apply Z.ltb_lt in Hdue. rewrite Hdue.
  exists (breath_state envelope t2 t3 d), (breath_color envelope t2).
  split; [reflexivity|]. split; [reflexivity|]. split; [reflexivity|].
  apply (breath_state_between_end_points envelope t2 t3 d Hv).
Qed.

Lemma breathing_frame_between_end_points_witness :
  let env := fun _ : Z => 187.5%float in
  exists d' c,
    showBreathingEffect env stripA 5 31 31 31 initial_display =
      Some (d', frame_trace stripA c) /\
    val d' = env 31 /\ lastBreathUpdate d' = 31 /\
    hueA <= hue d' <= hueB /\ satA <= sat d' <= satB /\
    (float_to_long (env 31) = 120 -> hue d' = hueA /\ sat d' = satA) /\
    (float_to_long (env 31) = 255 -> hue d' = hueB /\ sat d' = satB).
Proof.
  apply (breathing_frame_between_end_points (fun _ : Z => 187.5%float)
           stripA 31 31 31 initial_display).
  - reflexivity.
  - vm_compute. split; discriminate.
Defined.

(** *** The show phase *)

(** Successive passes of [runMemoryGame], one pair of clock readings each. *)
Fixpoint game_passes (ts : list (Z * Z)) (g : game) : M game :=
  match ts with
  | [] => ret g
  | (t1, t2) :: ts' => g1 <- runMemoryGame t1 t2 g ;; game_passes ts' g1
  end.

(** Every pass finds the step delay exceeded: its first reading is more
    than [STEP_DELAY] after the time stamp the pass before it left. *)
Fixpoint due_chain (stamp : Z) (ts : list (Z * Z)) : Prop :=
  match ts with
  | [] => True
  | (t1, t2) :: ts' => STEP_DELAY < elapsed t1 stamp /\ due_chain t2 ts'
  end.

(** What [playNote] sends for note [n]. *)
Definition note_events (n : Z) : list event :=
  match nth_error ledPins (Z.to_nat (n - 1)),
        nth_error notes (Z.to_nat (n - 1)) with
  | Some led, Some freq =>
      [digitalWrite led HIGH; tone SPEAKER_PIN freq 300; delay 300;
       digitalWrite led LOW; noTone SPEAKER_PIN]
  | _, _ => []
  end.

Lemma playNote_melody (n : Z) :
  1 <= n <= 6 -> playNote n = Some (tt, note_events n).
Proof.
  intros Hn.
  assert (H : n = 1 \/ n = 2 \/ n = 3 \/ n = 4 \/ n = 5 \/ n = 6) by lia.
  destruct H as [->|[->|[->|[->|[->| ->]]]]]; reflexivity.
Qed.

(** A due pass in the show phase with notes left plays the next note. *)
Lemma showing_pass (t1 t2 : Z) (g : game) (n : Z) :
  showingSequence g = true -> 0 <= currentStep g <= turn g ->
  turn g < melodyLength -> STEP_DELAY < elapsed t1 (lastActionTime g) ->
  nth_error melody (Z.to_nat (currentStep g)) = Some n ->
  runMemoryGame t1 t2 g =
    Some (mkGame (turn g) (currentStep g + 1) true (waitingForInput g) t2,
          note_events n).
Proof.
  intros Hs Hc Ht Hdue Hn. unfold runMemoryGame.
  destruct (melodyLength <=? turn g) eqn:Hle; [apply Z.leb_le in Hle; lia|].
  rewrite Hs. cbn [negb andb]. unfold ret. rewrite bind_pure, Hs. cbn [andb].
  apply Z.ltb_lt in Hdue. rewrite Hdue.
  destruct (currentStep g <=? turn g) eqn:Hmore; [|apply Z.leb_gt in Hmore; lia].
  rewrite (read_of_nth melody (currentStep g) n) by (lia || exact Hn).
  rewrite bind_pure.
  assert (Hin : In n melody) by (eapply nth_error_In; exact Hn).
  pose proof melody_entries as Hall. rewrite Forall_forall in Hall.
  rewrite (playNote_melody n (Hall n Hin)).
  cbn [bind ret]. rewrite app_nil_r. reflexivity.
Qed.

(** A due pass in the show phase with no note left hands over to the
    player. *)
Lemma showing_done (t1 t2 : Z) (g : game) :
  showingSequence g = true -> turn g < currentStep g ->
  turn g < melodyLength -> STEP_DELAY < elapsed t1 (lastActionTime g) ->
  runMemoryGame t1 t2 g =
    Some (mkGame (turn g) 0 false true (lastActionTime g),
          [Serial_println "Your turn!"]).
Proof.
  intros Hs Hc Ht Hdue. unfold runMemoryGame.
  destruct (melodyLength <=? turn g) eqn:Hle; [apply Z.leb_le in Hle; lia|].
  rewrite Hs. cbn [negb andb]. unfold ret. rewrite bind_pure, Hs. cbn [andb].
  apply Z.ltb_lt in Hdue. rewrite Hdue.
  destruct (currentStep g <=? turn g) eqn:Hmore; [apply Z.leb_le in Hmore; lia|].
  reflexivity.
Qed.

Lemma last_cons_default {A : Type} (l : list A) :
  forall a d : A, last (a :: l) d = last l a.
Proof.
  induction l as [|b l IH]; intros a d; [reflexivity|].
  change (last (a :: b :: l) d) with (last (b :: l) d).
  rewrite (IH b d), (IH b a). reflexivity.
Qed.

Lemma skipn_nth_cons {A : Type} (l : list A) :
  forall (k : nat) (x : A),
    nth_error l k = Some x -> skipn k l = x :: skipn (S k) l.
Proof.
  induction l as [|y l IH]; intros [|k] x H; try discriminate.
  - injection H as ->. reflexivity.
  - apply (IH k x H).
Qed.

(** From step [currentStep] of the show phase: [m] notes are left, and
    [m + 1] due passes play them and hand over. *)
Lemma show_from (m : nat) :
  forall (g : game) (ts : list (Z * Z)),
    showingSequence g = true -> waitingForInput g = false ->
    0 <= currentStep g -> currentStep g + Z.of_nat m = turn g + 1 ->
    turn g < melodyLength ->
    List.length ts = S m -> due_chain (lastActionTime g) ts ->
    game_passes ts g =
      Some (mkGame (turn g) 0 false true
                   (last (map snd (removelast ts)) (lastActionTime g)),
            flat_map note_events
              (firstn m (skipn (Z.to_nat (currentStep g)) melody)) ++
            [Serial_println "Your turn!"]).
Proof.
  induction m as [|m IH]; intros g ts Hs Hw Hc Hm Ht Hlen Hdue.
  - destruct ts as [|[t1 t2] [|? ?]]; try discriminate.
    destruct Hdue as [Hdue _]. cbn [game_passes].
    rewrite (showing_done t1 t2 g Hs) by (lia || exact Hdue).
    reflexivity.
  - destruct ts as [|[t1 t2] ts]; [discriminate|].
    destruct Hdue as [Hdue Hrest]. injection Hlen as Hlen.
    destruct (melody_nth (Z.to_nat (currentStep g))) as (n & Hn).
    { rewrite melodyLength_eq in Ht. lia. }
    cbn [game_passes].
    rewrite (showing_pass t1 t2 g n Hs) by (lia || assumption).
    rewrite Hw. cbn [bind].
    set (g1 := mkGame (turn g) (currentStep g + 1) true false t2).
    specialize (IH g1 ts eq_refl eq_refl).
    cbn [g1 currentStep turn lastActionTime] in IH.
    rewrite IH by (lia || assumption).
    f_equal. f_equal.
    + f_equal. destruct ts as [|p ts]; [discriminate|].
      change (removelast ((t1, t2) :: p :: ts))
        with ((t1, t2) :: removelast (p :: ts)).
      cbn [map snd]. symmetry. apply last_cons_default.
    + rewrite (skipn_nth_cons melody _ n Hn). cbn [firstn flat_map].
      rewrite <- app_assoc. do 3 f_equal.
      rewrite Z2Nat.inj_add by lia. rewrite Nat.add_1_r. reflexivity.
Qed.

(** X4.  The show phase of a level.  From Idle on level [turn] (below 15),
    [turn + 2] passes of [runMemoryGame] that each find the step delay
    exceeded announce the level, play the notes [melody[0..turn]] in order,
    one per pass, and then print "Your turn!": the game awaits input at
    step 0 of the same level. *)
Theorem show_phase_replays_prefix (g : game) (ts : list (Z * Z)) :
  showingSequence g = false -> waitingForInput g = false ->
  0 <= turn g < melodyLength ->
  List.length ts = S (S (Z.to_nat (turn g))) ->
  due_chain (lastActionTime g) ts ->
  game_passes ts g =
    Some (mkGame (turn g) 0 false true
                 (last (map snd (removelast ts)) (lastActionTime g)),
          [Serial_print "Turn "; Serial_println_int (turn g + 1)] ++
          flat_map note_events (firstn (S (Z.to_nat (turn g))) melody) ++
          [Serial_println "Your turn!"]).
Proof.
  intros Hs Hw Ht Hlen Hdue.
  destruct ts as [|[t1 t2] ts]; [discriminate|].
  destruct Hdue as [Hdue Hrest]. injection Hlen as Hlen.
  destruct (melody_nth 0) as (n & Hn); [lia|].
  assert (H1 : runMemoryGame t1 t2 g =
               Some (mkGame (turn g) 1 true false t2,
                     [Serial_print "Turn "; Serial_println_int (turn g + 1)] ++
                     note_events n)).
  { unfold runMemoryGame.
    destruct (melodyLength <=? turn g) eqn:Hle; [apply Z.leb_le in Hle; lia|].
    rewrite Hs, Hw. cbn [negb andb bind emit ret app].
    cbn [showingSequence lastActionTime currentStep turn waitingForInput andb].
    apply Z.ltb_lt in Hdue. rewrite Hdue.
    destruct (0 <=? turn g) eqn:H0; [|apply Z.leb_gt in H0; lia].
    rewrite (read_of_nth melody 0 n) by (lia || exact Hn).
    rewrite bind_pure.
    assert (Hin : In n melody) by (eapply nth_error_In; exact Hn).
    pose proof melody_entries as Hall. rewrite Forall_forall in Hall.
    rewrite (playNote_melody n (Hall n Hin)).
    cbn [bind ret]. rewrite app_nil_r. reflexivity. }
  cbn [game_passes]. rewrite H1. cbn [bind].
  set (g1 := mkGame (turn g) 1 true false t2).
  pose proof (show_from (Z.to_nat (turn g)) g1 ts eq_refl eq_refl) as IH.
  cbn [g1 currentStep turn lastActionTime] in IH.
  rewrite IH by (lia || assumption).
  f_equal. f_equal.
  - f_equal. destruct ts as [|p ts]; [discriminate|].
    change (removelast ((t1, t2) :: p :: ts))
      with ((t1, t2) :: removelast (p :: ts)).
    cbn [map snd]. symmetry. apply last_cons_default.
  - change (Z.to_nat 1) with 1%nat.
    change (firstn (S (Z.to_nat (turn g))) melody)
      with (3 :: firstn (Z.to_nat (turn g)) (skipn 1 melody)).
    change (nth_error melody 0) with (Some 3) in Hn.
    assert (Hn3 : n = 3) by congruence. rewrite Hn3.
    cbn [flat_map]. rewrite <- !List.app_assoc. reflexivity.
Qed.

(** Level 2, last stamp 5000: three notes, four passes. *)
Lemma show_phase_replays_prefix_witness :
  game_passes [(5801, 6101); (6902, 7202); (8003, 8303); (9104, 9404)]
              (mkGame 2 0 false false 5000) =
    Some (mkGame 2 0 false true 8303,
          [Serial_print "Turn "; Serial_println_int 3] ++
          flat_map note_events [3; 3; 4] ++
          [Serial_println "Your turn!"]).
Proof.
  apply (show_phase_replays_prefix (mkGame 2 0 false false 5000)
           [(5801, 6101); (6902, 7202); (8003, 8303); (9104, 9404)]).
  - reflexivity.
  - reflexivity.
  - vm_compute. split; [discriminate|reflexivity].
  - reflexivity.
  - vm_compute. repeat split.
Defined.

(** *** The timers and the wrap-around of [millis] *)

(** [millis()] is an [unsigned long]: it wraps to 0 after [2^32 - 1].  The
    unsigned difference still gives the time that passed. *)
Lemma elapsed_rollover (stamp d : Z) :
  0 <= stamp < 2 ^ 32 -> 0 <= d < 2 ^ 32 ->
  elapsed ((stamp + d) mod 2 ^ 32) stamp = d.
Proof.
  intros Hs Hd. unfold elapsed.
  rewrite Zminus_mod_idemp_l.
  replace (stamp + d - stamp) with d by lia.
  apply Z.mod_small. exact Hd.
Qed.

(** X5.  The step delay of the show phase is measured correctly across the
    wrap-around of the clock: a pass that reads the clock [d] milliseconds
    after the time stamp, wrapped or not, does nothing exactly when [d] is
    at most [STEP_DELAY]. *)
Theorem step_delay_across_rollover (g : game) (d t2 : Z) :
  0 <= lastActionTime g < 2 ^ 32 -> 0 <= d < 2 ^ 32 ->
  showingSequence g = true -> turn g < melodyLength ->
  (runMemoryGame ((lastActionTime g + d) mod 2 ^ 32) t2 g = Some (g, []) <->
   d <= STEP_DELAY).
Proof.
  intros Hstamp Hd Hs Ht. unfold runMemoryGame.
  destruct (melodyLength <=? turn g) eqn:Hle; [apply Z.leb_le in Hle; lia|].
  rewrite Hs. cbn [negb andb]. unfold ret. rewrite bind_pure, Hs. cbn [andb].
  rewrite (elapsed_rollover (lastActionTime g) d Hstamp Hd).
  destruct (STEP_DELAY <? d) eqn:Hdue.
  - apply Z.ltb_lt in Hdue. split; [|lia]. intros H. exfalso.
    destruct (currentStep g <=? turn g).
    + apply bind_Some in H. destruct H as (n & tr1 & tr2 & _ & H & _).
      apply bind_Some in H. destruct H as (u & tr3 & tr4 & _ & H & _).
      apply (f_equal (fun o => match o with
                               | Some (g', _) => currentStep g'
                               | None => 0
                               end)) in H.
      cbn [currentStep] in H. lia.
    + discriminate H.
  - apply Z.ltb_ge in Hdue. split; [intros _; exact Hdue|reflexivity].
Qed.

(** The clock wrapped between the stamp and the reading. *)
Lemma step_delay_across_rollover_witness :
  runMemoryGame ((4294967000 + 800) mod 2 ^ 32) 0
                (mkGame 3 1 true false 4294967000) =
    Some (mkGame 3 1 true false 4294967000, []) <->
  800 <= STEP_DELAY.
Proof.
  apply (step_delay_across_rollover (mkGame 3 1 true false 4294967000) 800 0).
  - vm_compute. split; [discriminate|reflexivity].
  - vm_compute. split; [discriminate|reflexivity].
  - reflexivity.
  - reflexivity.
Defined.

Section DisplayTimers.

Variable envelope : Z -> float.

(** X6.  The breathing interval and the report interval are measured
    correctly across the wrap-around of the clock: [d] milliseconds after
    [lastBreathUpdate], [showBreathingEffect] draws a frame and renews the
    stamp exactly when [d] exceeds 30; [d] milliseconds after [lastPrint],
    the report is printed and the stamp renewed exactly when [d] exceeds
    2000. *)
Theorem display_timers_across_rollover (s : strip) (d t2 t3 : Z)
    (dA dB : float) (c : clocks) (dsp : display) :
  0 <= d < 2 ^ 32 ->
  (0 <= lastBreathUpdate dsp < 2 ^ 32 ->
   showBreathingEffect envelope s 5
       ((lastBreathUpdate dsp + d) mod 2 ^ 32) t2 t3 dsp =
     if BREATH_INTERVAL <? d
     then Some (breath_state envelope t2 t3 dsp,
                frame_trace s (breath_color envelope t2))
     else Some (dsp, [])) /\
  (0 <= lastPrint dsp < 2 ^ 32 ->
   tPrintTest c = (lastPrint dsp + d) mod 2 ^ 32 ->
   exists d' tr,
     report dA dB c dsp = Some (d', tr) /\
     if 2000 <? d then lastPrint d' = tPrintDone c /\ tr <> []
     else d' = dsp /\ tr = []).
Proof.
  intros Hd. split.
  - intros Hstamp. rewrite showBreathingEffect_eq.
    rewrite (elapsed_rollover _ d Hstamp Hd). reflexivity.
  - intros Hstamp Hc. unfold report. rewrite Hc.
    rewrite (elapsed_rollover _ d Hstamp Hd).
    destruct (2000 <? d).
    + destruct (printDistance_returns dA) as ([] & trA & HA & _).
      destruct (printDistance_returns dB) as ([] & trB & HB & _).
      rewrite HA, HB. eexists _, _. split; [reflexivity|].
      split; [reflexivity|discriminate].
    + eexists _, _. split; [reflexivity|]. split; reflexivity.
Qed.

End DisplayTimers.

(** The clock wrapped between the stamp and the reading. *)
Lemma display_timers_across_rollover_witness :
  let dsp := mkDisplay valueMin hueA satA 4294967290 4294967290 in
  let c := mkClocks 0 0 0 ((4294967290 + 31) mod 2 ^ 32) 25 0 0 in
  (0 <= lastBreathUpdate dsp < 2 ^ 32 ->
   showBreathingEffect (fun _ => 187.5%float) stripA 5
       ((lastBreathUpdate dsp + 31) mod 2 ^ 32) 25 25 dsp =
     if BREATH_INTERVAL <? 31
     then Some (breath_state (fun _ => 187.5%float) 25 25 dsp,
                frame_trace stripA (breath_color (fun _ => 187.5%float) 25))
     else Some (dsp, [])) /\
  (0 <= lastPrint dsp < 2 ^ 32 ->
   tPrintTest c = (lastPrint dsp + 31) mod 2 ^ 32 ->
   exists d' tr,
     report PrimFloat.nan 2.5%float c dsp = Some (d', tr) /\
     if 2000 <? 31 then lastPrint d' = tPrintDone c /\ tr <> []
     else d' = dsp /\ tr = []).
Proof.
  apply (display_timers_across_rollover (fun _ => 187.5%float) stripA 31 25 25
           PrimFloat.nan 2.5%float
           (mkClocks 0 0 0 ((4294967290 + 31) mod 2 ^ 32) 25 0 0)
           (mkDisplay valueMin hueA satA 4294967290 4294967290)).
  vm_compute. split; [discriminate|reflexivity].
Defined.

(** *** One pass over the buttons *)

Definition is_serial (e : event) : bool :=
  match e with
  | Serial_print _ | Serial_println _ | Serial_println_int _
  | Serial_print_float _ _ => true
  | _ => false
  end.

Lemma Some_pair_inj {A B : Type} (a c : A) (b d : B) :
  Some (a, b) = Some (c, d) -> a = c /\ b = d.
Proof. intros H. split; congruence. Qed.

(** A judged press either leaves the game awaiting the next press, or ends
    the level: completed, or failed. *)
Lemma checkGameInput_outcome (b : Z) (g : game) :
  game_inv g -> waitingForInput g = true ->
  exists g2 tr2,
    checkGameInput b g = Some (g2, tr2) /\ game_inv g2 /\ wins tr2 = 0 /\
    ((completed tr2 = 0 /\ wrong tr2 = 0 /\ waitingForInput g2 = true) \/
     (completed tr2 + wrong tr2 = 1 /\ waitingForInput g2 = false)).
Proof.
  intros Hinv Hw.
  destruct (checkGameInput_inv b g Hinv) as (g2 & tr2 & Hrun & Hinv2).
  exists g2, tr2. split; [exact Hrun|]. split; [exact Hinv2|].
  unfold checkGameInput in Hrun. rewrite Hw in Hrun. cbn [negb] in Hrun.
  destruct Hinv as (_ & Hc & Hwait & _).
  destruct (Hwait Hw) as (Hstep & Hturn & _).
  destruct (read_melody (currentStep g)) as (n & Hr & _); [lia|].
  rewrite Hr, bind_pure in Hrun.
  destruct (b =? n).
  - destruct (turn g <? currentStep g + 1);
      cbn [bind emit ret app] in Hrun;
      apply Some_pair_inj in Hrun; destruct Hrun as [<- <-].
    + split; [reflexivity|]. right. split; reflexivity.
    + split; [reflexivity|]. left. repeat split.
  - rewrite failSequence_eq in Hrun. cbn [bind emit app] in Hrun.
    apply Some_pair_inj in Hrun. destruct Hrun as [<- <-].
    split; [reflexivity|]. right. split; reflexivity.
Qed.

(** The counts of a pin or speaker event are 0. *)
Ltac silent_events :=
  repeat match goal with
  | |- context [wins [digitalWrite ?p ?l]] =>
      change (wins [digitalWrite p l]) with 0
  | |- context [completed [digitalWrite ?p ?l]] =>
      change (completed [digitalWrite p l]) with 0
  | |- context [wrong [digitalWrite ?p ?l]] =>
      change (wrong [digitalWrite p l]) with 0
  | |- context [wins [tone ?p ?f ?d]] =>
      change (wins [tone p f d]) with 0
  | |- context [completed [tone ?p ?f ?d]] =>
      change (completed [tone p f d]) with 0
  | |- context [wrong [tone ?p ?f ?d]] =>
      change (wrong [tone p f d]) with 0
  | |- context [wins []] => change (wins []) with 0
  | |- context [completed []] => change (completed []) with 0
  | |- context [wrong []] => change (wrong []) with 0
  end.

(** One pass of [handleButtons] reports at most one outcome (a completed
    level or a wrong press, never a win), and after an outcome the game no
    longer awaits input.  When the game does not await input, or no button
    is down, the game is unchanged and nothing is printed. *)
Lemma handleButtons_outcome_bounds (pressed : Z -> bool) (g : game) :
  game_inv g ->
  exists g' tr,
    handleButtons pressed g = Some (g', tr) /\
    game_inv g' /\
    wins tr = 0 /\ completed tr + wrong tr <= 1 /\
    (completed tr + wrong tr = 1 -> waitingForInput g' = false) /\
    (waitingForInput g = false \/
     (forall i, 0 <= i < 6 -> pressed i = false) ->
       g' = g /\ filter is_serial tr = []).
Proof.
  intros Hinv. unfold handleButtons.
  set (quiet := waitingForInput g = false \/
                (forall i, 0 <= i < 6 -> pressed i = false)).
  set (I := fun (s : game) (tr : list event) =>
              game_inv s /\ wins tr = 0 /\ completed tr + wrong tr <= 1 /\
              (completed tr + wrong tr = 1 -> waitingForInput s = false) /\
              (quiet -> s = g /\ filter is_serial tr = [])).
  assert (H : yields (fun s' tr' => I s' ([] ++ tr'))
                (for_loop 0 6 (fun (i : Z) (g0 : game) =>
                   _ <- read buttonPins i ;;
                   led <- read ledPins i ;;
                   emit (digitalWrite led (pressed i)) ;;
                   (if pressed i
                    then n <- read notes i ;;
                         emit (tone SPEAKER_PIN n 200) ;;
                         (if waitingForInput g0
                          then checkGameInput (i + 1) g0 else ret g0)
                    else ret g0)) g)).
  { apply (yields_for_loop I).
    2: { unfold I. split; [exact Hinv|]. repeat split; try reflexivity.
         - change (completed [] + wrong []) with 0. lia.
         - change (completed [] + wrong []) with 0. lia. }
    intros i g1 tr Hi (Hinv1 & Hwin & Hle & Hout & Hq).
    destruct (read_Some buttonPins i) as (p & Hp); [simpl; lia|].
    destruct (read_Some ledPins i) as (led & Hled); [simpl; lia|].
    destruct (read_Some notes i) as (n & Hn); [simpl; lia|].
    rewrite Hp, bind_pure, Hled, bind_pure.
    pose proof (counts_nonneg tr) as (Hc0 & _ & Hw0).
    destruct (pressed i) eqn:Hpi.
    - cbn [bind emit]. rewrite Hn, bind_pure. cbn [bind emit].
      destruct (waitingForInput g1) eqn:Hw1.
      + destruct (checkGameInput_outcome (i + 1) g1 Hinv1 Hw1)
          as (g2 & tr2 & -> & Hinv2 & Hwin2 & Hcase).
        eexists _, _. split; [reflexivity|].
        unfold I.
        rewrite !wins_app, !completed_app, !wrong_app.
        silent_events.
        assert (Hfresh : completed tr + wrong tr = 0).
        { destruct (Z.eq_dec (completed tr + wrong tr) 1) as [E|E]; [|lia].
          discriminate (Hout E). }
        split; [exact Hinv2|]. split; [lia|].
        split; [destruct Hcase as [(? & ? & ?)|(? & ?)]; lia|].
        split; [destruct Hcase as [(? & ? & ?)|(? & ?)]; [lia|auto]|].
        intros [Hquiet|Hquiet].
        * destruct (Hq (or_introl Hquiet)) as [-> _]. congruence.
        * rewrite (Hquiet i Hi) in Hpi. discriminate.
      + eexists _, _. split; [reflexivity|].
        unfold I.
        rewrite !wins_app, !completed_app, !wrong_app.
        silent_events.
        split; [exact Hinv1|]. split; [lia|]. split; [lia|].
        split; [intros _; exact Hw1|].
        intros Hquiet. destruct (Hq Hquiet) as [-> Hser].
        split; [reflexivity|].
        rewrite !filter_app, Hser. reflexivity.
    - eexists _, _. split; [reflexivity|].
      unfold I.
      rewrite !wins_app, !completed_app, !wrong_app.
      silent_events.
      split; [exact Hinv1|]. split; [lia|]. split; [lia|].
      split; [intros E; apply Hout; lia|].
      intros Hquiet. destruct (Hq Hquiet) as [-> Hser].
      split; [reflexivity|].
      rewrite !filter_app, Hser. reflexivity. }
  destruct H as (g' & tr & Hrun & HI).
  exists g', tr. split; [exact Hrun|]. exact HI.
Qed.

(** *** A button that stays down *)

(** The body of the loop of [handleButtons]. *)
Definition button_body (pressed : Z -> bool) (i : Z) (g : game) : M game :=
  _ <- read buttonPins i ;;
  led <- read ledPins i ;;
  emit (digitalWrite led (pressed i)) ;;
  if pressed i then
    n <- read notes i ;;
    emit (tone SPEAKER_PIN n 200) ;;
    if waitingForInput g then checkGameInput (i + 1) g else ret g
  else ret g.

Lemma handleButtons_unfold (pressed : Z -> bool) (g : game) :
  handleButtons pressed g = for_loop 0 6 (button_body pressed) g.
Proof. reflexivity. Qed.

(** Button [i] is down, the others are up. *)
Definition only (i : Z) : Z -> bool := fun j => j =? i.

(** [n] passes of [handleButtons] with button [i] down all the time. *)
Fixpoint hold (i : Z) (n : nat) (g : game) : M game :=
  match n with
  | O => ret g
  | S n' => g1 <- handleButtons (only i) g ;; hold i n' g1
  end.

Lemma bind_assoc {A B C : Type} (m : M A) (f : A -> M B) (k : B -> M C) :
  bind (bind m f) k = bind m (fun a => bind (f a) k).
Proof.
  unfold bind. destruct m as [[a tr1]|]; [|reflexivity].
  destruct (f a) as [[b tr2]|]; [|reflexivity].
  destruct (k b) as [[c tr3]|]; [|reflexivity].
  rewrite app_assoc. reflexivity.
Qed.

Lemma bind_ext {A B : Type} (m : M A) (f k : A -> M B) :
  (forall a, f a = k a) -> bind m f = bind m k.
Proof.
  intros H. unfold bind. destruct m as [[a tr]|]; [|reflexivity].
  rewrite H. reflexivity.
Qed.

Lemma for_loop_split {St : Type} (body : Z -> St -> M St) (n m : nat) :
  forall (lo : Z) (s : St),
    for_loop lo (n + m) body s =
      bind (for_loop lo n body s)
           (fun s1 => for_loop (lo + Z.of_nat n) m body s1).
Proof.
  induction n as [|n IH]; intros lo s.
  - cbn [for_loop Nat.add]. unfold ret. rewrite bind_pure.
    rewrite Z.add_0_r. reflexivity.
  - cbn [for_loop Nat.add]. rewrite bind_assoc.
    apply bind_ext. intros s1. rewrite IH.
    replace (lo + 1 + Z.of_nat n) with (lo + Z.of_nat (Datatypes.S n)) by lia.
    reflexivity.
Qed.

(** Buttons that are up leave the game alone. *)
Lemma idle_buttons (pressed : Z -> bool) (n : nat) :
  forall (lo : Z) (g : game),
    0 <= lo -> lo + Z.of_nat n <= 6 ->
    (forall j, lo <= j < lo + Z.of_nat n -> pressed j = false) ->
    exists tr, for_loop lo n (button_body pressed) g = Some (g, tr).
Proof.
  induction n as [|n IH]; intros lo g Hlo Hhi Hup.
  - exists []. reflexivity.
  - cbn [for_loop]. unfold button_body at 1.
    destruct (read_Some buttonPins lo) as (p & Hp); [simpl; lia|].
    destruct (read_Some ledPins lo) as (led & Hled); [simpl; lia|].
    rewrite Hp, bind_pure, Hled, bind_pure, (Hup lo) by lia.
    destruct (IH (lo + 1) g) as (tr & Htr); [lia|lia|intros j Hj; apply Hup; lia|].
    cbn [bind emit ret]. rewrite Htr.
    eexists. reflexivity.
Qed.

(** One pass with button [i] down ends in the state of one judged press. *)
Lemma handleButtons_only (g g1 : game) (trc : list event) (i : Z) :
  0 <= i < 6 ->
  checkGameInput (i + 1) g = Some (g1, trc) ->
  exists tr, handleButtons (only i) g = Some (g1, tr).
Proof.
  intros Hi Hc.
  destruct (idle_buttons (only i) (Z.to_nat i) 0 g) as (tr0 & H0);
    [lia|lia|intros j Hj; unfold only; apply Z.eqb_neq; lia|].
  assert (H1 : exists tr1,
             for_loop i 1 (button_body (only i)) g = Some (g1, tr1)).
  { cbn [for_loop]. unfold button_body, only. rewrite Z.eqb_refl.
    destruct (read_Some buttonPins i) as (p & Hp); [simpl; lia|].
    destruct (read_Some ledPins i) as (led & Hled); [simpl; lia|].
    destruct (read_Some notes i) as (n & Hn); [simpl; lia|].
    rewrite Hp, bind_pure, Hled, bind_pure. cbn [bind emit].
    rewrite Hn, bind_pure. cbn [bind emit].
    destruct (waitingForInput g) eqn:Hw.
    - rewrite Hc. cbn [ret]. eexists. reflexivity.
    - unfold checkGameInput in Hc. rewrite Hw in Hc. cbn [negb] in Hc.
      apply Some_pair_inj in Hc. destruct Hc as [<- _].
      cbn [ret]. eexists. reflexivity. }
  destruct H1 as (tr1 & H1).
  destruct (idle_buttons (only i) (5 - Z.to_nat i) (i + 1) g1) as (tr2 & H2);
    [lia|lia|intros j Hj; unfold only; apply Z.eqb_neq; lia|].
  exists (tr0 ++ tr1 ++ tr2).
  rewrite handleButtons_unfold.
  replace 6%nat with (Z.to_nat i + (1 + (5 - Z.to_nat i)))%nat by lia.
  rewrite for_loop_split, H0. cbn [bind].
  rewrite Z2Nat.id by lia. cbn [Z.add].
  rewrite for_loop_split, H1. cbn [bind].
  change (Z.of_nat 1) with 1. rewrite H2. reflexivity.
Qed.

(** X14.  No release is awaited.  A button that stays down for [n] passes
    of [handleButtons] is judged in every pass: the game ends in the state
    that [n] separate presses of that button lead to. *)
Theorem held_button_judged_every_pass (i : Z) (n : nat) :
  0 <= i < 6 ->
  forall g : game,
    game_inv g ->
    exists g' tr tr',
      hold i n g = Some (g', tr) /\
      presses (repeat (i + 1) n) g = Some (g', tr').
Proof.
  intros Hi. induction n as [|n IH]; intros g Hinv.
  - exists g, [], []. split; reflexivity.
  - destruct (checkGameInput_inv (i + 1) g Hinv) as (g1 & trc & Hc & Hinv1).
    destruct (handleButtons_only g g1 trc i Hi Hc) as (tr1 & H1).
    destruct (IH g1 Hinv1) as (g' & tr & tr' & Hhold & Hpress).
    exists g', (tr1 ++ tr), (trc ++ tr').
    cbn [hold presses repeat]. rewrite H1, Hc. cbn [bind].
    rewrite Hhold, Hpress. split; reflexivity.
Qed.

(** Level 1 awaits notes 3 and 3: button 3 held for two passes completes
    the level. *)
Lemma held_button_judged_every_pass_witness :
  exists g' tr tr',
    hold 2 2 (mkGame 1 0 false true 0) = Some (g', tr) /\
    presses (repeat (2 + 1) 2) (mkGame 1 0 false true 0) = Some (g', tr').
Proof.
  apply (held_button_judged_every_pass 2 2).
  - lia.
  - unfold game_inv. cbn [turn currentStep waitingForInput showingSequence].
    rewrite melodyLength_eq.
    split; [lia|]. split; [lia|]. split; [intros _|intros E; discriminate E].
    split; [lia|]. split; [lia|reflexivity].
Defined.

(** *** The buttons of a pass, in pin order *)

(** The pins [lo], [lo + 1], ..., [n] of them. *)
Fixpoint pins_from (lo : Z) (n : nat) : list Z :=
  match n with
  | O => []
  | S n' => lo :: pins_from (lo + 1) n'
  end.

(** The buttons that are down in a pass, as the numbers [checkGameInput]
    gets, lowest pin first. *)
Definition buttons_down (pressed : Z -> bool) : list Z :=
  map (fun i => i + 1) (filter pressed [0; 1; 2; 3; 4; 5]).

Lemma buttons_loop (pressed : Z -> bool) (n : nat) :
  forall (lo : Z) (g : game),
    0 <= lo -> lo + Z.of_nat n <= 6 -> game_inv g ->
    exists g' tr tr',
      for_loop lo n (button_body pressed) g = Some (g', tr) /\
      presses (map (fun i => i + 1) (filter pressed (pins_from lo n))) g
        = Some (g', tr') /\
      filter is_serial tr = filter is_serial tr'.
Proof.
  induction n as [|n IH]; intros lo g Hlo Hhi Hinv.
  - exists g, [], []. repeat split.
  - cbn [for_loop pins_from filter]. unfold button_body at 1.
    destruct (read_Some buttonPins lo) as (p & Hp); [simpl; lia|].
    destruct (read_Some ledPins lo) as (led & Hled); [simpl; lia|].
    destruct (read_Some notes lo) as (nt & Hn); [simpl; lia|].
    rewrite Hp, bind_pure, Hled, bind_pure.
    destruct (pressed lo) eqn:Hdown.
    + destruct (checkGameInput_inv (lo + 1) g Hinv)
        as (g1 & trc & Hc & Hinv1).
      destruct (IH (lo + 1) g1) as (g' & tr & tr' & Hloop & Hpress & Hser);
        [lia|lia|exact Hinv1|].
      assert (Hjudge : (if waitingForInput g
                        then checkGameInput (lo + 1) g else ret g)
                       = Some (g1, trc)).
      { destruct (waitingForInput g) eqn:Hw; [exact Hc|].
        unfold checkGameInput in Hc. rewrite Hw in Hc. exact Hc. }
      cbn [bind emit]. rewrite Hn, bind_pure. cbn [bind emit].
      rewrite Hjudge. cbn [bind]. rewrite Hloop.
      cbn [map presses]. rewrite Hc. cbn [bind]. rewrite Hpress.
      eexists _, _, _. split; [reflexivity|]. split; [reflexivity|].
      cbn [app filter is_serial]. rewrite !filter_app, Hser. reflexivity.
    + destruct (IH (lo + 1) g) as (g' & tr & tr' & Hloop & Hpress & Hser);
        [lia|lia|exact Hinv|].
      cbn [bind emit ret]. rewrite Hloop.
      eexists _, _, _. split; [reflexivity|]. split; [exact Hpress|].
      cbn [app filter is_serial]. exact Hser.
Qed.

(** X7.  One pass of [handleButtons] from a state of the game judges the
    buttons that are down, lowest pin first: the game ends in the state
    that [checkGameInput], called once for each of them in that order,
    leads to, and what the pass prints is what those calls print.
    [checkGameInput] ignores a press while the game does not await input,
    so the pass reports at most one outcome (a completed level or a wrong
    press, never a win), and after an outcome the game no longer awaits
    input.  When the game does not await input, or no button is down, the
    game is unchanged and nothing is printed. *)
Theorem handleButtons_judges_in_pin_order (pressed : Z -> bool) (g : game) :
  game_inv g ->
  exists g' tr tr',
    handleButtons pressed g = Some (g', tr) /\
    presses (buttons_down pressed) g = Some (g', tr') /\
    filter is_serial tr = filter is_serial tr' /\
    game_inv g' /\
    wins tr = 0 /\ completed tr + wrong tr <= 1 /\
    (completed tr + wrong tr = 1 -> waitingForInput g' = false) /\
    (waitingForInput g = false \/
     (forall i, 0 <= i < 6 -> pressed i = false) ->
       g' = g /\ filter is_serial tr = []).
Proof.
  intros Hinv.
  destruct (buttons_loop pressed 6 0 g) as (g' & tr & tr' & Hloop & Hpress & Hser);
    [lia|simpl; lia|exact Hinv|].
  destruct (handleButtons_outcome_bounds pressed g Hinv)
    as (g2 & tr2 & Hrun & Hbounds).
  rewrite handleButtons_unfold, Hloop in Hrun.
  apply Some_pair_inj in Hrun. destruct Hrun as [<- <-].
  exists g', tr, tr'.
  split; [rewrite handleButtons_unfold; exact Hloop|].
  split; [exact Hpress|]. split; [exact Hser|]. exact Hbounds.
Qed.

(** Level 2 at step 1: the melody expects notes 3 and 4.  Buttons 3 and 4
    are both down: the pass judges button 3, then button 4, and the level
    is completed. *)
Lemma handleButtons_judges_in_pin_order_witness :
  let pressed := fun i => (i =? 2) || (i =? 3) in
  let g := mkGame 2 1 false true 0 in
  exists g' tr tr',
    handleButtons pressed g = Some (g', tr) /\
    presses [3; 4] g = Some (g', tr') /\
    filter is_serial tr = filter is_serial tr' /\
    game_inv g' /\
    wins tr = 0 /\ completed tr + wrong tr <= 1 /\
    (completed tr + wrong tr = 1 -> waitingForInput g' = false) /\
    (waitingForInput g = false \/
     (forall i, 0 <= i < 6 -> pressed i = false) ->
       g' = g /\ filter is_serial tr = []).
Proof.
  apply (handleButtons_judges_in_pin_order (fun i => (i =? 2) || (i =? 3))
           (mkGame 2 1 false true 0)).
  unfold game_inv. cbn [turn currentStep waitingForInput showingSequence].
  rewrite melodyLength_eq.
  split; [lia|]. split; [lia|]. split; [intros _|intros E; discriminate E].
  split; [lia|]. split; [lia|reflexivity].
Defined.

(** In that pass the order decides: lowest pin first the level is
    completed; highest pin first button 4 would be judged against note 3. *)
Lemma pin_order_decides :
  (exists tr, presses [3; 4] (mkGame 2 1 false true 0)
                = Some (mkGame 3 3 false false 0, tr)) /\
  (exists tr, presses [4; 3] (mkGame 2 1 false true 0)
                = Some (mkGame 0 0 false false 0, tr)).
Proof. split; eexists; reflexivity. Qed.

(** *** The distance samplers

    [readDistanceSinglePin] and [readDistanceTrigEcho] drive their pins,
    call [pulseIn] and turn the width of the echo into centimetres by the
    same three lines.  [float] is binary32: [SpecFloat] at precision 24 and
    exponent bound 128, rounding to nearest.  The value returned is modelled
    as a function of the width [pulseIn] gave; a width is at most the
    timeout. *)

Definition ECHO_TIMEOUT_US : Z := 30000.

(** An integer converted to [float]. *)
Definition float32_of_Z (n : Z) : spec_float := binary_normalize 24 128 n 0 false.

(** [0.0343f]: the binary32 number nearest to 343/10000. *)
Definition SOUND_CM_PER_US : spec_float :=
  SFdiv 24 128 (float32_of_Z 343) (float32_of_Z 10000).

(** [0.5f] *)
Definition half32 : spec_float := S754_finite false 8388608 (-24).

Definition distance_of_pulse (duration : Z) : spec_float :=
  if duration =? 0 then S754_nan
  else
    let cm := SFdiv 24 128 (SFmul 24 128 (float32_of_Z duration) SOUND_CM_PER_US)
                    (float32_of_Z 2) in
    if SFltb cm half32 then S754_zero false else cm.

Definition readDistanceSinglePin (duration : Z) : spec_float :=
  distance_of_pulse duration.

Definition readDistanceTrigEcho (duration : Z) : spec_float :=
  distance_of_pulse duration.

(** The sample as the gate receives it. *)
Definition sample_of_pulse (duration : Z) : float :=
  SF2Prim (distance_of_pulse duration).

Definition sample_ok (duration : Z) : bool :=
  let cm := sample_of_pulse duration in
  Bool.eqb (PrimFloat.is_nan cm) (duration =? 0) &&
  ((duration =? 0) || (cm =? 0)%float || (0.5 <=? cm)%float) &&
  Bool.eqb (cm =? 0)%float ((1 <=? duration) && (duration <=? 29)) &&
  Bool.eqb (classify cm) (175 <=? duration).

Lemma SOUND_CM_PER_US_eq : SOUND_CM_PER_US = S754_finite false 9207336 (-28).
Proof. reflexivity. Qed.

(** Every width up to the timeout, checked one by one. *)
Lemma sample_ok_all : all_from sample_ok 0 (Z.to_nat 30001) = true.
Proof. vm_compute. reflexivity. Qed.

(** X8.  Both samplers compute the same value, and for every width up to
    the timeout: the sample is NaN exactly when [pulseIn] timed out
    (width 0); otherwise it is 0 or at least 0.5 cm, and it is 0 exactly for
    widths 1 to 29; the presence gate is true exactly for widths of 175
    microseconds and more. *)
Theorem sample_of_pulse_gate (duration : Z) :
  0 <= duration <= ECHO_TIMEOUT_US ->
  let cm := SF2Prim (readDistanceSinglePin duration) in
  readDistanceTrigEcho duration = readDistanceSinglePin duration /\
  (PrimFloat.is_nan cm = true <-> duration = 0) /\
  (duration <> 0 -> (cm =? 0)%float = true \/ (0.5 <=? cm)%float = true) /\
  ((cm =? 0)%float = true <-> 1 <= duration <= 29) /\
  (classify cm = true <-> 175 <= duration).
Proof.
  intros Hd. cbv zeta. split; [reflexivity|].
  change (SF2Prim (readDistanceSinglePin duration))
    with (sample_of_pulse duration).
  assert (Hin : 0 <= duration < 0 + Z.of_nat (Z.to_nat 30001)).
  { unfold ECHO_TIMEOUT_US in Hd. rewrite Z2Nat.id; lia. }
  pose proof (all_from_spec sample_ok _ 0 sample_ok_all duration Hin) as H.
  clear Hin.
  unfold sample_ok in H. cbv zeta in H.
  set (cm := sample_of_pulse duration) in *.
  rewrite !andb_true_iff, !orb_true_iff in H.
  destruct H as (((Hnan & Hfloor) & Hzero) & Hgate).
  apply Bool.eqb_prop in Hnan, Hzero, Hgate.
  assert (Hz : (cm =? 0)%float = true <-> 1 <= duration <= 29).
  { rewrite Hzero, andb_true_iff, !Z.leb_le. tauto. }
  split; [rewrite Hnan; apply Z.eqb_eq|].
  split.
  { intros Hne. destruct Hfloor as [[H0|H0]|H0]; auto.
    apply Z.eqb_eq in H0. contradiction. }
  split; [exact Hz|].
  rewrite Hgate. apply Z.leb_le.
Qed.

(** The shortest echo that opens the gate. *)
Lemma sample_of_pulse_gate_witness :
  let cm := SF2Prim (readDistanceSinglePin 175) in
  readDistanceTrigEcho 175 = readDistanceSinglePin 175 /\
  (PrimFloat.is_nan cm = true <-> 175 = 0) /\
  (175 <> 0 -> (cm =? 0)%float = true \/ (0.5 <=? cm)%float = true) /\
  ((cm =? 0)%float = true <-> 1 <= 175 <= 29) /\
  (classify cm = true <-> 175 <= 175).
Proof.
  apply (sample_of_pulse_gate 175). vm_compute. split; discriminate.
Defined.

End Firmware.

(* ================================================================== *)
(** * Part II: PhotoApp/Form1.cs *)
(* ================================================================== *)

Module PhotoApp.

#[local] Set Warnings "-inexact-float".

(** ** Time

    A [DateTime] is its number of ticks (100 ns) since [DateTime.MinValue];
    a [TimeSpan] is a number of ticks. *)

Definition DateTime : Type := Z.
Definition TimeSpan : Type := Z.
Definition MinValue : DateTime := 0.
Definition TicksPerMillisecond : Z := 10000.
Definition FromMilliseconds (ms : Z) : TimeSpan := ms * TicksPerMillisecond.

(** ** Constants of the conditioner *)

Definition StartThresh : float := 2.8%float.
Definition StopThresh : float := 3.5%float.
Definition _startDebounce : TimeSpan := FromMilliseconds 250.
Definition _stopDebounce : TimeSpan := FromMilliseconds 700.
Definition SmoothCount : nat := 5.

(** An [int] converted to [double]. *)
Definition double_of_int (n : Z) : float := PrimFloat.of_uint63 (Uint63.of_Z n).

(** The delegates that [Port_DataReceived] posts to the UI thread with
    [BeginInvoke]. *)
Inductive Action : Type :=
| InvokeStart      (* BeginInvoke((Action)StartSlideshow) *)
| InvokeStop.      (* BeginInvoke((Action)StopSlideshow) *)

(** ** The pattern [_bRegex] on ASCII text

    [\bB:\s*([-+]?\d+(?:\.\d+)?)\s*(?:cm)?], case ignored: the first match
    from the left, and its group 1.  What follows group 1 in the pattern
    matches the empty text, so a match is decided by the text up to the end
    of group 1. *)

Definition is_digit (c : ascii) : bool :=
  let n := nat_of_ascii c in (48 <=? n)%nat && (n <=? 57)%nat.

Definition is_letter (c : ascii) : bool :=
  let n := nat_of_ascii c in
  ((65 <=? n)%nat && (n <=? 90)%nat) || ((97 <=? n)%nat && (n <=? 122)%nat).

(** [\w] *)
Definition is_word (c : ascii) : bool :=
  is_digit c || is_letter c || Ascii.eqb c "_".

(** [\s] *)
Definition is_space (c : ascii) : bool :=
  let n := nat_of_ascii c in
  (n =? 32)%nat || ((9 <=? n)%nat && (n <=? 13)%nat).

Fixpoint span (p : ascii -> bool) (s : list ascii) : list ascii * list ascii :=
  match s with
  | c :: s' => if p c then let (a, b) := span p s' in (c :: a, b) else ([], s)
  | [] => ([], [])
  end.

(** The pattern from [B] on, at the start of [s]: group 1 on success. *)
Definition match_here (s : list ascii) : option (list ascii) :=
  match s with
  | b :: colon :: rest =>
      if (Ascii.eqb b "B" || Ascii.eqb b "b") && Ascii.eqb colon ":" then
        let rest1 := snd (span is_space rest) in
        let (sign, rest2) :=
          match rest1 with
          | c :: r => if Ascii.eqb c "-" || Ascii.eqb c "+"
                      then ([c], r) else ([], rest1)
          | [] => ([], [])
          end in
        let (ds, rest3) := span is_digit rest2 in
        match ds with
        | [] => None
        | _ :: _ =>
            match rest3 with
            | dot :: r =>
                if Ascii.eqb dot "." then
                  match fst (span is_digit r) with
                  | [] => Some (sign ++ ds)
                  | fs => Some (sign ++ ds ++ dot :: fs)
                  end
                else Some (sign ++ ds)
            | [] => Some (sign ++ ds)
            end
        end
      else None
  | _ => None
  end.

(** The search from the left; [\b] in front of [B] asks that the character
    before is not a word character. *)
Fixpoint search (prev_is_word : bool) (s : list ascii) : option (list ascii) :=
  match s with
  | [] => None
  | c :: s' =>
      match (if prev_is_word then None else match_here s) with
      | Some g => Some g
      | None => search (is_word c) s'
      end
  end.

Definition bRegex_ascii (line : string) : option string :=
  option_map string_of_list_ascii (search false (list_ascii_of_string line)).

(** [chunk.Split(new[] { "\r\n", "\n", "\r" }, RemoveEmptyEntries)] *)
Fixpoint split_lines (cur : list ascii) (s : list ascii) : list string :=
  match s with
  | [] => match cur with [] => [] | _ => [string_of_list_ascii (rev cur)] end
  | c :: s' =>
      if Ascii.eqb c "010" || Ascii.eqb c "013" then
        match cur with
        | [] => split_lines [] s'
        | _ => string_of_list_ascii (rev cur) :: split_lines [] s'
        end
      else split_lines (c :: cur) s'
  end.

Definition Split (chunk : string) : list string :=
  split_lines [] (list_ascii_of_string chunk).

(** A stand-in for [double.TryParse] in examples: the value of a decimal
    [[-+]digits[.digits]] of at most 15 digits, on which the quotient of two
    exactly represented numbers is the correctly rounded value. *)
Definition digits_value (ds : list ascii) : Z :=
  fold_left (fun acc c => acc * 10 + (Z.of_nat (nat_of_ascii c) - 48)) ds 0.

Definition TryParse_short (s : string) : option float :=
  let cs := list_ascii_of_string s in
  let (neg, cs1) :=
    match cs with
    | c :: r => if Ascii.eqb c "-" then (true, r)
                else if Ascii.eqb c "+" then (false, r) else (false, cs)
    | [] => (false, [])
    end in
  let (ip, rest) := span is_digit cs1 in
  let fp := match rest with
            | dot :: r => if Ascii.eqb dot "." then fst (span is_digit r) else []
            | [] => []
            end in
  if ((1 <=? List.length ip) && (List.length ip + List.length fp <=? 15))%nat then
    let x := (double_of_int (digits_value (ip ++ fp)) /
              double_of_int (10 ^ Z.of_nat (List.length fp)))%float in
    Some (if neg then (- x)%float else x)
  else None.

(** ** The two thresholds in floating point *)

Lemma ltb_compare (x y : float) :
  (x <? y)%float = true <-> SFcompare (Prim2SF x) (Prim2SF y) = Some Lt.
Proof.
  rewrite ltb_spec. unfold SFltb.
  destruct (SFcompare (Prim2SF x) (Prim2SF y)) as [[| |]|];
    split; intros H; try reflexivity; discriminate.
Qed.

Lemma leb_compare (x y : float) :
  (x <=? y)%float = true <->
  SFcompare (Prim2SF x) (Prim2SF y) = Some Lt \/
  SFcompare (Prim2SF x) (Prim2SF y) = Some Eq.
Proof.
  rewrite leb_spec. unfold SFleb.
  destruct (SFcompare (Prim2SF x) (Prim2SF y)) as [[| |]|];
    split; intros H; try reflexivity; auto; try discriminate;
    destruct H; discriminate.
Qed.

Lemma Prim2SF_StartThresh :
  Prim2SF StartThresh = S754_finite false 6305039478318694 (-51).
Proof. reflexivity. Qed.

Lemma Prim2SF_StopThresh :
  Prim2SF StopThresh = S754_finite false 7881299347898368 (-51).
Proof. reflexivity. Qed.

(** The comparison of two finite positive numbers in [SFcompare]. *)
Definition finite_compare (m1 : positive) (e1 : Z) (m2 : positive) (e2 : Z)
  : comparison :=
  match Z.compare e1 e2 with
  | Eq => Pos.compare_cont Eq m1 m2
  | Lt => Lt
  | Gt => Gt
  end.

Lemma finite_compare_Lt (m1 : positive) (e1 : Z) (m2 : positive) (e2 : Z) :
  finite_compare m1 e1 m2 e2 = Lt ->
  e1 < e2 \/ (e1 = e2 /\ (m1 < m2)%positive).
Proof.
  unfold finite_compare.
  destruct (Z.compare_spec e1 e2) as [E|E|E]; try discriminate; [|auto].
  change (Pos.compare_cont Eq m1 m2) with (Pos.compare m1 m2).
  intros H. apply Pos.compare_lt_iff in H. auto.
Qed.

Lemma finite_compare_Eq (m1 : positive) (e1 : Z) (m2 : positive) (e2 : Z) :
  finite_compare m1 e1 m2 e2 = Eq -> e1 = e2 /\ m1 = m2.
Proof.
  unfold finite_compare.
  destruct (Z.compare_spec e1 e2) as [E|E|E]; try discriminate.
  change (Pos.compare_cont Eq m1 m2) with (Pos.compare m1 m2).
  intros H. apply Pos.compare_eq in H. auto.
Qed.

(** [SFcompare] of [v] with a positive finite number, by the shape of [v]. *)
Lemma compare_finite_l (v : spec_float) (m0 : positive) (e0 : Z) :
  SFcompare (S754_finite false m0 e0) v = Some Lt ->
  v = S754_infinity false \/
  exists m e, v = S754_finite false m e /\ finite_compare m0 e0 m e = Lt.
Proof.
  destruct v as [[|]|[|]| |[|] m e]; cbn [SFcompare]; intros H;
    try discriminate; auto.
  right. exists m, e. split; [reflexivity|].
  apply (f_equal (fun o => match o with Some c => c | None => Eq end)) in H.
  exact H.
Qed.

Lemma compare_finite_r (v : spec_float) (m0 : positive) (e0 : Z) :
  SFcompare v (S754_finite false m0 e0) = Some Lt ->
  v = S754_infinity true \/ (exists s, v = S754_zero s) \/
  (exists m e, v = S754_finite true m e) \/
  exists m e, v = S754_finite false m e /\ finite_compare m e m0 e0 = Lt.
Proof.
  destruct v as [[|]|[|]| |[|] m e]; cbn [SFcompare]; intros H;
    try discriminate; eauto 6.
  right. right. right. exists m, e. split; [reflexivity|].
  apply (f_equal (fun o => match o with Some c => c | None => Eq end)) in H.
  exact H.
Qed.

Lemma compare_finite_eq (v : spec_float) (m0 : positive) (e0 : Z) :
  SFcompare (S754_finite false m0 e0) v = Some Eq \/
  SFcompare v (S754_finite false m0 e0) = Some Eq ->
  v = S754_finite false m0 e0.
Proof.
  destruct v as [[|]|[|]| |[|] m e]; cbn [SFcompare]; intros [H|H];
    try discriminate; injection H as H.
  - apply (finite_compare_Eq m0 e0 m e) in H. destruct H; congruence.
  - apply (finite_compare_Eq m e m0 e0) in H. destruct H; congruence.
Qed.

Lemma ltb_false_of_not_Lt (x y : float) :
  SFcompare (Prim2SF x) (Prim2SF y) <> Some Lt -> (x <? y)%float = false.
Proof.
  intros H. destruct (x <? y)%float eqn:E; [|reflexivity].
  apply ltb_compare in E. contradiction.
Qed.

(** Two orderings of a mantissa and an exponent that contradict each
    other; the mantissas of the thresholds are compared by computation. *)
Ltac order_absurd :=
  repeat match goal with
  | H : _ \/ _ |- _ => destruct H
  | H : _ /\ _ |- _ => destruct H
  end;
  subst;
  match goal with
  | H : ?e < ?e |- _ => exact (Z.lt_irrefl _ H)
  | H1 : ?a < ?b, H2 : ?b < ?a |- _ => exact (Z.lt_asymm _ _ H1 H2)
  | H1 : (?a < ?m)%positive, H2 : (?m < ?b)%positive |- _ =>
      let Habs := fresh "Habs" in
      pose proof (Pos.lt_trans _ _ _ H1 H2) as Habs;
      vm_compute in Habs; discriminate Habs
  | H : (?a < ?a)%positive |- _ => exact (Pos.lt_irrefl _ H)
  end.

(** The three ranges of the state machine exclude each other. *)
Lemma above_stop_not_below_start (v : float) :
  (StopThresh <? v)%float = true -> (v <? StartThresh)%float = false.
Proof.
  intros H. apply ltb_compare in H. apply ltb_false_of_not_Lt. intros H'.
  rewrite Prim2SF_StopThresh in H. rewrite Prim2SF_StartThresh in H'.
  apply compare_finite_l in H. apply compare_finite_r in H'.
  destruct H as [Hv|(m & e & Hv & Hc)]; rewrite Hv in H';
    destruct H' as [H'|[(s & H')|[(m' & e' & H')|(m' & e' & H' & Hc')]]];
    try discriminate.
  injection H' as <- <-. clear Hv.
  apply finite_compare_Lt in Hc, Hc'. order_absurd.
Qed.

Lemma dead_zone_not_below_start (v : float) :
  (StartThresh <=? v)%float = true -> (v <? StartThresh)%float = false.
Proof.
  intros H. apply leb_compare in H. apply ltb_false_of_not_Lt. intros H'.
  rewrite Prim2SF_StartThresh in H, H'.
  apply compare_finite_r in H'.
  destruct H as [H|H].
  - apply compare_finite_l in H.
    destruct H as [Hv|(m & e & Hv & Hc)]; rewrite Hv in H';
      destruct H' as [H'|[(s & H')|[(m' & e' & H')|(m' & e' & H' & Hc')]]];
      try discriminate.
    injection H' as <- <-. clear Hv.
    apply finite_compare_Lt in Hc, Hc'. order_absurd.
  - assert (Hv := compare_finite_eq _ _ _ (or_introl H)). rewrite Hv in H'.
    destruct H' as [H'|[(s & H')|[(m' & e' & H')|(m' & e' & H' & Hc')]]];
      try discriminate.
    injection H' as <- <-. clear Hv H.
    apply finite_compare_Lt in Hc'. order_absurd.
Qed.

Lemma dead_zone_not_above_stop (v : float) :
  (v <=? StopThresh)%float = true -> (StopThresh <? v)%float = false.
Proof.
  intros H. apply leb_compare in H. apply ltb_false_of_not_Lt. intros H'.
  rewrite Prim2SF_StopThresh in H, H'.
  apply compare_finite_l in H'.
  destruct H as [H|H].
  - apply compare_finite_r in H.
    destruct H' as [Hv|(m & e & Hv & Hc)]; rewrite Hv in H;
      destruct H as [H|[(s & H)|[(m' & e' & H)|(m' & e' & H & Hc')]]];
      try discriminate.
    injection H as <- <-. clear Hv.
    apply finite_compare_Lt in Hc, Hc'. order_absurd.
  - assert (Hv := compare_finite_eq _ _ _ (or_intror H)). rewrite Hv in H'.
    destruct H' as [H'|(m & e & H' & Hc)]; try discriminate.
    injection H' as <- <-. clear Hv H.
    apply finite_compare_Lt in Hc. order_absurd.
Qed.

Section Form.

(** The decoded images; the list is filled once, when the form is built. *)
Variable Image : Type.
Variable _images : list Image.

(** [_bRegex.Match(line)]: group 1 of the first match, if the line has one;
    and [double.TryParse] with [NumberStyles.Float] and the invariant
    culture.  Both are the platform library's. *)
Variable Regex_Match : string -> option string.
Variable TryParse : string -> option float.

(** ** The fields of the form *)

Record Form1 : Type := mkForm {
  _imgIdx : Z;
  _slideTimer : bool;                  (* the timer is running *)
  _slideshowOn : bool;
  _belowStart : DateTime;
  _aboveStart : DateTime;
  _last : list float;                  (* the queue, oldest first *)
  pictureBox1_Image : option Image     (* [None] is [null] *)
}.

Definition initial_form : Form1 :=
  mkForm 0 false false MinValue MinValue [] None.

(** ** Parsing and smoothing *)

Definition ParseDistanceB (line : string) : float :=
  match Regex_Match line with
  | None => PrimFloat.nan
  | Some group1 =>
      match TryParse group1 with
      | Some cm => cm
      | None => PrimFloat.nan
      end
  end.

(** [Smoothed(cm)]: the value returned and the queue afterwards. *)
Definition Smoothed (cm : float) (q : list float) : float * list float :=
  if PrimFloat.is_nan cm then (PrimFloat.nan, q)
  else
    let q1 := if (List.length q =? SmoothCount)%nat then tl q else q in
    let q2 := q1 ++ [cm] in
    let sum := fold_left PrimFloat.add q2 0%float in
    let n := Z.of_nat (List.length q2) in
    (if 0 <? n then (sum / double_of_int n)%float else PrimFloat.nan, q2).

(** ** The slideshow *)

Definition StartSlideshow (f : Form1) : Form1 :=
  if _slideshowOn f then f
  else
    match _images with
    | [] =>
        mkForm (_imgIdx f) (_slideTimer f) true (_belowStart f) (_aboveStart f)
               (_last f) (pictureBox1_Image f)
    | first :: _ =>
        mkForm 0 true true (_belowStart f) (_aboveStart f) (_last f)
               (Some first)
    end.

Definition StopSlideshow (f : Form1) : Form1 :=
  if negb (_slideshowOn f) then f
  else
    mkForm (_imgIdx f) false false (_belowStart f) (_aboveStart f) (_last f)
           (pictureBox1_Image f).

(** [_images[i]] throws outside the list; [AdvancePhoto] computes an index
    inside it (lemma [AdvancePhoto_index]); the model keeps the picture
    otherwise. *)
Definition AdvancePhoto (f : Form1) : Form1 :=
  match _images with
  | [] => f
  | _ :: _ =>
      let i := Z.rem (_imgIdx f + 1) (Z.of_nat (List.length _images)) in
      mkForm i (_slideTimer f) (_slideshowOn f) (_belowStart f)
             (_aboveStart f) (_last f)
             (match nth_error _images (Z.to_nat i) with
              | Some img => Some img
              | None => pictureBox1_Image f
              end)
  end.

(** [button2_Click], as far as the fields above go. *)
Definition button2_Click (f : Form1) : Form1 :=
  let f1 := StopSlideshow f in
  mkForm (_imgIdx f1) (_slideTimer f1) (_slideshowOn f1) (_belowStart f1)
         (_aboveStart f1) (_last f1) None.

Definition invoke (a : Action) (f : Form1) : Form1 :=
  match a with
  | InvokeStart => StartSlideshow f
  | InvokeStop => StopSlideshow f
  end.

(** ** The conditioner *)

Definition set_timers (below above : DateTime) (f : Form1) : Form1 :=
  mkForm (_imgIdx f) (_slideTimer f) (_slideshowOn f) below above (_last f)
         (pictureBox1_Image f).

Definition set_last (q : list float) (f : Form1) : Form1 :=
  mkForm (_imgIdx f) (_slideTimer f) (_slideshowOn f) (_belowStart f)
         (_aboveStart f) q (pictureBox1_Image f).

(** The state machine with hysteresis (lines 192-213) on the smoothed value
    [b].  [now1] is [DateTime.UtcNow] as read for the time stamp, [now2] as
    read for the debounce test.  The result is the form and the delegate
    posted, if any. *)
Definition hysteresis (b : float) (now1 now2 : DateTime) (f : Form1)
  : Form1 * option Action :=
  if (b <? StartThresh)%float then
    let below := if _belowStart f =? MinValue then now1 else _belowStart f in
    (set_timers below MinValue f,
     if negb (_slideshowOn f) && (_startDebounce <=? now2 - below)
     then Some InvokeStart else None)
  else if (StopThresh <? b)%float then
    let above := if _aboveStart f =? MinValue then now1 else _aboveStart f in
    (set_timers MinValue above f,
     if _slideshowOn f && (_stopDebounce <=? now2 - above)
     then Some InvokeStop else None)
  else
    (set_timers MinValue MinValue f, None).

(** The body of the [foreach] of [Port_DataReceived], from the parsed value
    [b] on (lines 185-213). *)
Definition ingest_value (b : float) (now1 now2 : DateTime) (f : Form1)
  : Form1 * option Action :=
  if PrimFloat.is_nan b then (f, None)
  else
    let (b', q) := Smoothed b (_last f) in
    let f1 := set_last q f in
    if PrimFloat.is_nan b' then (f1, None)
    else hysteresis b' now1 now2 f1.

(** The body of the [foreach] for one line. *)
Definition ingest (line : string) (now1 now2 : DateTime) (f : Form1)
  : Form1 * option Action :=
  ingest_value (ParseDistanceB line) now1 now2 f.

Definition post (a : option Action) : list Action :=
  match a with Some x => [x] | None => [] end.

(** [Port_DataReceived] on a chunk, with one pair of clock readings per
    line: the form afterwards and the delegates posted, oldest first.  The
    handler runs on the serial thread and only posts the delegates; none of
    them runs inside it. *)
Fixpoint foreach_line (lines : list string) (clock : list (DateTime * DateTime))
    (f : Form1) : Form1 * list Action :=
  match lines, clock with
  | line :: lines', (now1, now2) :: clock' =>
      let (f1, a) := ingest line now1 now2 f in
      let (f2, posted) := foreach_line lines' clock' f1 in
      (f2, post a ++ posted)
  | _, _ => (f, [])
  end.

Definition Port_DataReceived (chunk : string) (clock : list (DateTime * DateTime))
    (f : Form1) : Form1 * list Action :=
  foreach_line (Split chunk) clock f.

(** ** The application as a whole

    The serial thread runs the conditioner; the UI thread runs the posted
    delegates, the timer and the buttons.  [posted] is the queue of
    delegates not run yet. *)

Record world : Type := mkWorld {
  form : Form1;
  posted : list Action
}.

Definition initial_world : world := mkWorld initial_form [].

Inductive input : Type :=
| Sample (b : float) (now1 now2 : DateTime)   (* a line whose value is [b] *)
| Dispatch            (* the UI thread runs the oldest posted delegate *)
| TimerTick           (* the slide timer fires *)
| Disconnect.         (* the Disconnect button *)

(** One step, and the delegate it posts. *)
Definition step (i : input) (w : world) : world * option Action :=
  match i with
  | Sample b now1 now2 =>
      let (f1, a) := ingest_value b now1 now2 (form w) in
      (mkWorld f1 (posted w ++ post a), a)
  | Dispatch =>
      match posted w with
      | [] => (w, None)
      | a :: rest => (mkWorld (invoke a (form w)) rest, None)
      end
  | TimerTick =>
      (mkWorld (if _slideTimer (form w) then AdvancePhoto (form w) else form w)
               (posted w), None)
  | Disconnect => (mkWorld (button2_Click (form w)) (posted w), None)
  end.

(** A run: the world afterwards and the delegates posted, oldest first. *)
Fixpoint run (ins : list input) (w : world) : world * list Action :=
  match ins with
  | [] => (w, [])
  | i :: ins' =>
      let (w1, a) := step i w in
      let (w2, emitted) := run ins' w1 in
      (w2, post a ++ emitted)
  end.

(** A run in which the UI thread runs each delegate before the next line is
    read. *)
Fixpoint run_prompt (samples : list (float * DateTime * DateTime)) (f : Form1)
  : Form1 * list Action :=
  match samples with
  | [] => (f, [])
  | (b, now1, now2) :: samples' =>
      let (f1, a) := ingest_value b now1 now2 f in
      let f2 := match a with Some x => invoke x f1 | None => f1 end in
      let (f3, emitted) := run_prompt samples' f2 in
      (f3, post a ++ emitted)
  end.

(** The commands of [l] alternate, and the first one fits the state [on]:
    a start when off, a stop when on. *)
Fixpoint alternates (on : bool) (l : list Action) : Prop :=
  match l with
  | [] => True
  | InvokeStart :: l' => on = false /\ alternates true l'
  | InvokeStop :: l' => on = true /\ alternates false l'
  end.

(** The slideshow fields agree: flag, timer, index and picture. *)
Definition same_slideshow (f f' : Form1) : Prop :=
  _slideshowOn f' = _slideshowOn f /\ _slideTimer f' = _slideTimer f /\
  _imgIdx f' = _imgIdx f /\ pictureBox1_Image f' = pictureBox1_Image f.

(** While the timer runs the slideshow is on. *)
Definition timer_inv (f : Form1) : Prop :=
  _slideTimer f = true -> _slideshowOn f = true.

(** ** The conditioner touches the timers and the queue only *)

Lemma hysteresis_frame (b : float) (now1 now2 : DateTime) (f : Form1) :
  same_slideshow f (fst (hysteresis b now1 now2 f)) /\
  _last (fst (hysteresis b now1 now2 f)) = _last f.
Proof.
  unfold hysteresis, same_slideshow.
  destruct (b <? StartThresh)%float; [|destruct (StopThresh <? b)%float];
    cbn; repeat split.
Qed.

Lemma ingest_value_frame (b : float) (now1 now2 : DateTime) (f : Form1) :
  same_slideshow f (fst (ingest_value b now1 now2 f)).
Proof.
  unfold ingest_value.
  destruct (PrimFloat.is_nan b); [repeat split|].
  destruct (Smoothed b (_last f)) as [b' q].
  destruct (PrimFloat.is_nan b'); [repeat split|].
  apply (hysteresis_frame b' now1 now2 (set_last q f)).
Qed.

(** A start is posted only while the flag is off, a stop only while it is
    on. *)
Lemma hysteresis_guard (b : float) (now1 now2 : DateTime) (f : Form1) :
  match snd (hysteresis b now1 now2 f) with
  | Some InvokeStart => _slideshowOn f = false
  | Some InvokeStop => _slideshowOn f = true
  | None => True
  end.
Proof.
  unfold hysteresis.
  destruct (b <? StartThresh)%float; [|destruct (StopThresh <? b)%float]; cbn.
  - destruct (_slideshowOn f); cbn; [exact I|].
    match goal with |- context [if ?c then Some _ else None] =>
      destruct c end; cbn; auto.
  - destruct (_slideshowOn f); cbn; [|exact I].
    match goal with |- context [if ?c then Some _ else None] =>
      destruct c end; cbn; auto.
  - exact I.
Qed.

Lemma ingest_value_guard (b : float) (now1 now2 : DateTime) (f : Form1) :
  match snd (ingest_value b now1 now2 f) with
  | Some InvokeStart => _slideshowOn f = false
  | Some InvokeStop => _slideshowOn f = true
  | None => True
  end.
Proof.
  unfold ingest_value.
  destruct (PrimFloat.is_nan b); [exact I|].
  destruct (Smoothed b (_last f)) as [b' q].
  destruct (PrimFloat.is_nan b'); [exact I|].
  apply (hysteresis_guard b' now1 now2 (set_last q f)).
Qed.

(** ** The slideshow commands *)

Lemma StartSlideshow_on (f : Form1) : _slideshowOn (StartSlideshow f) = true.
Proof.
  unfold StartSlideshow. destruct (_slideshowOn f) eqn:Hon; [exact Hon|].
  destruct _images; reflexivity.
Qed.

Lemma StopSlideshow_off (f : Form1) : _slideshowOn (StopSlideshow f) = false.
Proof.
  unfold StopSlideshow. destruct (_slideshowOn f) eqn:Hon; cbn; [reflexivity|exact Hon].
Qed.

Lemma StartSlideshow_repeat (f : Form1) :
  _slideshowOn f = true -> StartSlideshow f = f.
Proof. intros H. unfold StartSlideshow. rewrite H. reflexivity. Qed.

Lemma StopSlideshow_repeat (f : Form1) :
  _slideshowOn f = false -> StopSlideshow f = f.
Proof. intros H. unfold StopSlideshow. rewrite H. reflexivity. Qed.

Lemma AdvancePhoto_index (f : Form1) :
  0 <= _imgIdx f -> _images <> [] ->
  exists img,
    nth_error _images (Z.to_nat (_imgIdx (AdvancePhoto f))) = Some img /\
    pictureBox1_Image (AdvancePhoto f) = Some img.
Proof.
  intros Hidx Hne. unfold AdvancePhoto.
  destruct _images as [|x l] eqn:Himg; [contradiction|].
  cbn [_imgIdx pictureBox1_Image].
  set (n := Z.of_nat (List.length (x :: l))).
  assert (Hn : 0 < n) by (unfold n; simpl List.length; lia).
  assert (Hi : 0 <= _imgIdx f + 1) by lia.
  pose proof (Z.rem_bound_pos (_imgIdx f + 1) n Hi Hn) as Hb.
  set (r := Z.rem (_imgIdx f + 1) n) in *.
  destruct (nth_error (x :: l) (Z.to_nat r)) as [img|] eqn:Hnth.
  - exists img. auto.
  - apply nth_error_None in Hnth. unfold n in Hb. clearbody r.
    cbn [List.length] in Hnth, Hb. lia.
Qed.

(** ** The timer runs only while the slideshow is on *)

Lemma step_timer_inv (i : input) (w : world) :
  timer_inv (form w) -> timer_inv (form (fst (step i w))).
Proof.
  unfold timer_inv. intros Hinv. destruct i as [b now1 now2| | |]; cbn [step].
  - destruct (ingest_value b now1 now2 (form w)) as [f1 a] eqn:Hing.
    cbn [fst form].
    destruct (ingest_value_frame b now1 now2 (form w)) as (Hon & Htm & _).
    rewrite Hing in Hon, Htm. cbn [fst] in Hon, Htm.
    rewrite Hon, Htm. exact Hinv.
  - destruct (posted w) as [|a rest]; [exact Hinv|].
    cbn [fst form]. destruct a; cbn [invoke].
    + intros _. apply StartSlideshow_on.
    + unfold StopSlideshow.
      destruct (_slideshowOn (form w)) eqn:Hon; cbn; [discriminate|].
      rewrite ?Hon. exact Hinv.
  - cbn [fst form]. destruct (_slideTimer (form w)) eqn:Htm;
      [|rewrite Htm; exact Hinv].
    unfold AdvancePhoto. destruct _images; cbn; intros _; apply Hinv; reflexivity.
  - cbn [fst form]. unfold button2_Click, StopSlideshow.
    destruct (_slideshowOn (form w)) eqn:Hon; cbn; [discriminate|].
    rewrite ?Hon. exact Hinv.
Qed.

Lemma run_timer_inv (ins : list input) :
  forall w : world, timer_inv (form w) -> timer_inv (form (fst (run ins w))).
Proof.
  induction ins as [|i ins IH]; intros w Hinv; cbn [run].
  - exact Hinv.
  - pose proof (step_timer_inv i w Hinv) as H1.
    destruct (step i w) as [w1 a]. cbn [fst] in H1.
    specialize (IH w1 H1).
    destruct (run ins w1) as [w2 emitted]. exact IH.
Qed.

(** ** The claims on the conditioner and the slideshow *)

(** C2, as the code has it.  The state machine on a smoothed value [v],
    from any state.  Below 2.8: [_belowStart] is set to the clock if it was
    not set, and kept otherwise; [_aboveStart] is cleared; a start is posted
    exactly when the slideshow is off and at least 250 ms have passed since
    [_belowStart]; no stop is posted.  Posting does not set the flag: after
    the call that posts the start the slideshow is still off, and it is the
    posted [StartSlideshow], when the UI thread runs it, that turns it on.
    Above 3.5: the same with the roles exchanged and 700 ms.  From 2.8 to
    3.5: both time stamps are cleared and nothing is posted.  In every case
    the conditioner leaves the slideshow fields and the queue as they
    are. *)
Theorem hysteresis_decision (v : float) (now1 now2 : DateTime) (f : Form1) :
  exists f' a,
    hysteresis v now1 now2 f = (f', a) /\
    same_slideshow f f' /\ _last f' = _last f /\
    ((v <? 2.8)%float = true ->
       _belowStart f' =
         (if _belowStart f =? MinValue then now1 else _belowStart f) /\
       _aboveStart f' = MinValue /\
       (a = Some InvokeStart <->
          _slideshowOn f = false /\
          FromMilliseconds 250 <= now2 - _belowStart f') /\
       a <> Some InvokeStop /\
       (a = Some InvokeStart ->
          _slideshowOn f' = false /\
          _slideshowOn (invoke InvokeStart f') = true)) /\
    ((3.5 <? v)%float = true ->
       _aboveStart f' =
         (if _aboveStart f =? MinValue then now1 else _aboveStart f) /\
       _belowStart f' = MinValue /\
       (a = Some InvokeStop <->
          _slideshowOn f = true /\
          FromMilliseconds 700 <= now2 - _aboveStart f') /\
       a <> Some InvokeStart /\
       (a = Some InvokeStop ->
          _slideshowOn f' = true /\
          _slideshowOn (invoke InvokeStop f') = false)) /\
    ((2.8 <=? v)%float = true -> (v <=? 3.5)%float = true ->
       _belowStart f' = MinValue /\ _aboveStart f' = MinValue /\ a = None).
Proof.
  destruct (hysteresis v now1 now2 f) as [f' a] eqn:Hh.
  exists f', a. split; [reflexivity|].
  pose proof (hysteresis_frame v now1 now2 f) as (Hsame & Hlast).
  rewrite Hh in Hsame, Hlast. cbn [fst] in Hsame, Hlast.
  split; [exact Hsame|]. split; [exact Hlast|].
  change 2.8%float with StartThresh. change 3.5%float with StopThresh.
  change (FromMilliseconds 250) with _startDebounce.
  change (FromMilliseconds 700) with _stopDebounce.
  unfold hysteresis in Hh.
  split; [|split].
  - intros Hlow. rewrite Hlow in Hh. injection Hh as <- <-.
    cbn [set_timers _belowStart _aboveStart].
    split; [reflexivity|]. split; [reflexivity|].
    set (below := if _belowStart f =? MinValue then now1 else _belowStart f).
    split; [|split].
    + destruct (_slideshowOn f); cbn [negb andb].
      * split; [discriminate|intros [H _]; discriminate].
      * destruct (_startDebounce <=? now2 - below) eqn:Hd.
        -- apply Z.leb_le in Hd. split; auto.
        -- apply Z.leb_gt in Hd. split; [discriminate|intros [_ H]; lia].
    + destruct (negb (_slideshowOn f) && (_startDebounce <=? now2 - below));
        discriminate.
    + intros Ha. split; [|apply StartSlideshow_on].
      cbn [set_timers _slideshowOn].
      destruct (_slideshowOn f); [|reflexivity].
      cbn [negb andb] in Ha. discriminate Ha.
  - intros Hhigh. rewrite (above_stop_not_below_start v Hhigh), Hhigh in Hh.
    injection Hh as <- <-.
    cbn [set_timers _belowStart _aboveStart].
    split; [reflexivity|]. split; [reflexivity|].
    set (above := if _aboveStart f =? MinValue then now1 else _aboveStart f).
    split; [|split].
    + destruct (_slideshowOn f); cbn [andb].
      * destruct (_stopDebounce <=? now2 - above) eqn:Hd.
        -- apply Z.leb_le in Hd. split; auto.
        -- apply Z.leb_gt in Hd. split; [discriminate|intros [_ H]; lia].
      * split; [discriminate|intros [H _]; discriminate].
    + destruct (_slideshowOn f && (_stopDebounce <=? now2 - above));
        discriminate.
    + intros Ha. split; [|apply StopSlideshow_off].
      cbn [set_timers _slideshowOn].
      destruct (_slideshowOn f); [reflexivity|].
      cbn [andb] in Ha. discriminate Ha.
  - intros Hge Hle.
    rewrite (dead_zone_not_below_start v Hge),
      (dead_zone_not_above_stop v Hle) in Hh.
    injection Hh as <- <-. repeat split.
Qed.

(** C3, as the code has it.  A call posts at most one delegate (the result
    is an [option]): a start only while the slideshow is off and a stop only
    while it is on.  When the UI thread runs each posted delegate before the
    next line is read, the delegates posted along any sequence of lines
    alternate, beginning with the one that fits the state.  A start that
    reaches a running slideshow, and a stop that reaches a stopped one,
    change nothing. *)
Theorem transitions_guarded_and_alternate_when_prompt :
  (forall b now1 now2 f,
     match snd (ingest_value b now1 now2 f) with
     | Some InvokeStart => _slideshowOn f = false
     | Some InvokeStop => _slideshowOn f = true
     | None => True
     end) /\
  (forall samples f,
     alternates (_slideshowOn f) (snd (run_prompt samples f))) /\
  (forall f, _slideshowOn f = true -> invoke InvokeStart f = f) /\
  (forall f, _slideshowOn f = false -> invoke InvokeStop f = f).
Proof.
  split; [exact ingest_value_guard|].
  split; [|split; [exact StartSlideshow_repeat|exact StopSlideshow_repeat]].
  induction samples as [|[[b now1] now2] samples IH]; intros f; cbn [run_prompt].
  - exact I.
  - pose proof (ingest_value_guard b now1 now2 f) as Hguard.
    destruct (ingest_value_frame b now1 now2 f) as (Hon & _).
    destruct (ingest_value b now1 now2 f) as [f1 a].
    cbn [fst snd] in Hguard, Hon.
    destruct a as [[|]|]; cbn [invoke post].
    + specialize (IH (StartSlideshow f1)). rewrite StartSlideshow_on in IH.
      destruct (run_prompt samples (StartSlideshow f1)) as [f3 emitted].
      cbn [snd app alternates] in *. auto.
    + specialize (IH (StopSlideshow f1)). rewrite StopSlideshow_off in IH.
      destruct (run_prompt samples (StopSlideshow f1)) as [f3 emitted].
      cbn [snd app alternates] in *. auto.
    + specialize (IH f1). rewrite Hon in IH.
      destruct (run_prompt samples f1) as [f3 emitted].
      cbn [snd app] in *. exact IH.
Qed.

(** C8.  A line in which the pattern finds no value, or whose matched text
    is not a number, leaves every field of the form as it is (queue, time
    stamps, flag) and posts nothing. *)
Theorem unparsable_line_ignored (line : string) (now1 now2 : DateTime)
    (f : Form1) :
  Regex_Match line = None \/
  (exists group1, Regex_Match line = Some group1 /\ TryParse group1 = None) ->
  ingest line now1 now2 f = (f, None).
Proof.
  intros H. unfold ingest, ingest_value.
  assert (Hnan : ParseDistanceB line = PrimFloat.nan).
  { unfold ParseDistanceB. destruct H as [->|(g & -> & ->)]; reflexivity. }
  rewrite Hnan. reflexivity.
Qed.

(** C9.  [StopSlideshow] changes neither the picture shown nor the image
    index, in any state; in every state the application reaches, the timer
    is stopped afterwards and the slideshow is off. *)
Theorem StopSlideshow_halts_and_keeps_picture (ins : list input) (f : Form1) :
  (pictureBox1_Image (StopSlideshow f) = pictureBox1_Image f /\
   _imgIdx (StopSlideshow f) = _imgIdx f) /\
  (let reached := form (fst (run ins initial_world)) in
   _slideTimer (StopSlideshow reached) = false /\
   _slideshowOn (StopSlideshow reached) = false /\
   pictureBox1_Image (StopSlideshow reached) = pictureBox1_Image reached /\
   _imgIdx (StopSlideshow reached) = _imgIdx reached).
Proof.
  assert (Hkeep : forall g, pictureBox1_Image (StopSlideshow g) = pictureBox1_Image g /\
                            _imgIdx (StopSlideshow g) = _imgIdx g).
  { intros g. unfold StopSlideshow. destruct (_slideshowOn g); cbn; auto. }
  split; [apply Hkeep|].
  cbv zeta. set (reached := form (fst (run ins initial_world))).
  assert (Hinv : timer_inv reached).
  { apply run_timer_inv. unfold timer_inv. cbn. discriminate. }
  split; [|split; [apply StopSlideshow_off|apply Hkeep]].
  unfold StopSlideshow. destruct (_slideshowOn reached) eqn:Hon; cbn; [reflexivity|].
  destruct (_slideTimer reached) eqn:Htm; [|reflexivity].
  unfold timer_inv in Hinv. rewrite Htm, Hon in Hinv.
  symmetry. apply Hinv. reflexivity.
Qed.

(* ------------------------------------------------------------------ *)
(** ** Further properties of the application *)
(* ------------------------------------------------------------------ *)

(** *** The photo on display *)

(** The index is inside the list, the picture is the photo at the index or
    none, and while the timer runs a photo is on display. *)
Definition shown_inv (f : Form1) : Prop :=
  0 <= _imgIdx f /\ (_images <> [] -> _imgIdx f < Z.of_nat (List.length _images)) /\
  (pictureBox1_Image f = None \/
   pictureBox1_Image f = nth_error _images (Z.to_nat (_imgIdx f))) /\
  (_slideTimer f = true ->
     _slideshowOn f = true /\
     exists img, pictureBox1_Image f = Some img /\
                 nth_error _images (Z.to_nat (_imgIdx f)) = Some img).

Lemma shown_inv_frame (f f' : Form1) :
  same_slideshow f f' -> shown_inv f -> shown_inv f'.
Proof.
  unfold same_slideshow, shown_inv.
  intros (Hon & Htm & Hidx & Hpic). rewrite Hon, Htm, Hidx, Hpic. auto.
Qed.

Lemma StartSlideshow_shown (f : Form1) :
  shown_inv f -> shown_inv (StartSlideshow f).
Proof.
  intros Hinv. unfold StartSlideshow.
  destruct (_slideshowOn f) eqn:Hon; [exact Hinv|].
  unfold shown_inv in *.
  destruct Hinv as (H0 & Hlt & Hpic & Htm).
  assert (Hoff : _slideTimer f = false).
  { destruct (_slideTimer f); [|reflexivity].
    destruct (Htm eq_refl) as (Habs & _). congruence. }
  destruct _images as [|first rest];
    cbn [_imgIdx _slideTimer _slideshowOn pictureBox1_Image].
  - split; [exact H0|]. split; [exact Hlt|]. split; [exact Hpic|].
    rewrite Hoff. discriminate.
  - split; [lia|]. split; [intros _; cbn [List.length]; lia|].
    split; [right; reflexivity|].
    intros _. split; [reflexivity|]. exists first. split; reflexivity.
Qed.

Lemma StopSlideshow_shown (f : Form1) :
  shown_inv f -> shown_inv (StopSlideshow f).
Proof.
  intros Hinv. unfold StopSlideshow.
  destruct (_slideshowOn f) eqn:Hon; cbn [negb]; [|exact Hinv].
  destruct Hinv as (H0 & Hlt & Hpic & Htm).
  unfold shown_inv. cbn [_imgIdx _slideTimer _slideshowOn pictureBox1_Image].
  split; [exact H0|]. split; [exact Hlt|]. split; [exact Hpic|].
  discriminate.
Qed.

Lemma AdvancePhoto_keeps (f : Form1) :
  _slideTimer (AdvancePhoto f) = _slideTimer f /\
  _slideshowOn (AdvancePhoto f) = _slideshowOn f /\
  _last (AdvancePhoto f) = _last f /\
  _belowStart (AdvancePhoto f) = _belowStart f /\
  _aboveStart (AdvancePhoto f) = _aboveStart f.
Proof. unfold AdvancePhoto. destruct _images; repeat split. Qed.

Lemma AdvancePhoto_none (f : Form1) : _images = [] -> AdvancePhoto f = f.
Proof. unfold AdvancePhoto. intros H. rewrite H. reflexivity. Qed.

Lemma AdvancePhoto_next (f : Form1) :
  _images <> [] ->
  _imgIdx (AdvancePhoto f) =
    Z.rem (_imgIdx f + 1) (Z.of_nat (List.length _images)).
Proof.
  unfold AdvancePhoto. destruct _images; [contradiction|reflexivity].
Qed.

Lemma Count_pos : _images <> [] -> 0 < Z.of_nat (List.length _images).
Proof. destruct _images; [contradiction|cbn [List.length]; lia]. Qed.

Lemma AdvancePhoto_shown (f : Form1) :
  shown_inv f -> shown_inv (AdvancePhoto f).
Proof.
  intros Hinv.
  assert (Hcase : _images = [] \/ _images <> []).
  { destruct _images; [left; reflexivity|right; discriminate]. }
  destruct Hcase as [Hnil|Hne].
  { rewrite (AdvancePhoto_none f Hnil). exact Hinv. }
  destruct Hinv as (H0 & Hlt & Hpic & Htm).
  destruct (AdvancePhoto_index f H0 Hne) as (img & Hnth & Hshow).
  destruct (AdvancePhoto_keeps f) as (Ktm & Kon & _).
  assert (Hidx : 0 <= _imgIdx (AdvancePhoto f) < Z.of_nat (List.length _images)).
  { rewrite (AdvancePhoto_next f Hne).
    apply Z.rem_bound_pos; [lia|apply Count_pos; exact Hne]. }
  unfold shown_inv. rewrite Ktm, Kon, Hshow, Hnth.
  split; [lia|]. split; [intros _; lia|]. split; [right; reflexivity|].
  intros E. split; [apply Htm; exact E|]. exists img. auto.
Qed.

Lemma step_shown (i : input) (w : world) :
  shown_inv (form w) -> shown_inv (form (fst (step i w))).
Proof.
  intros Hinv. destruct i as [b now1 now2| | |]; cbn [step].
  - pose proof (ingest_value_frame b now1 now2 (form w)) as Hfr.
    destruct (ingest_value b now1 now2 (form w)) as [f1 a].
    cbn [fst form] in *. apply (shown_inv_frame (form w)); assumption.
  - destruct (posted w) as [|a rest]; [exact Hinv|].
    cbn [fst form]. destruct a; cbn [invoke].
    + apply StartSlideshow_shown. exact Hinv.
    + apply StopSlideshow_shown. exact Hinv.
  - cbn [fst form]. destruct (_slideTimer (form w)); [|exact Hinv].
    apply AdvancePhoto_shown. exact Hinv.
  - cbn [fst form]. apply StopSlideshow_shown in Hinv.
    pose proof (StopSlideshow_off (form w)) as Hoff.
    unfold button2_Click.
    destruct Hinv as (H0 & Hlt & Hpic & Htm).
    unfold shown_inv. cbn [_imgIdx _slideTimer _slideshowOn pictureBox1_Image].
    split; [exact H0|]. split; [exact Hlt|]. split; [left; reflexivity|].
    intros E. destruct (Htm E) as (Hon & _). congruence.
Qed.

Lemma run_shown (ins : list input) :
  forall w : world,
    shown_inv (form w) -> shown_inv (form (fst (run ins w))).
Proof.
  induction ins as [|i ins IH]; intros w Hinv; cbn [run].
  - exact Hinv.
  - pose proof (step_shown i w Hinv) as H1.
    destruct (step i w) as [w1 a]. cbn [fst] in H1.
    specialize (IH w1 H1).
    destruct (run ins w1) as [w2 emitted]. exact IH.
Qed.

(** X9.  In every state the application reaches from its start, whatever
    the samples, the dispatches, the timer ticks and the disconnects are:
    the index is inside the list of photos, so [_images[_imgIdx]] never
    throws; the picture box shows nothing or the photo at the index; while
    the timer runs the slideshow is on and a photo is on display; and with
    no photo loaded the timer never runs and nothing is ever shown. *)
Theorem photo_index_inside_list (ins : list input) :
  let f := form (fst (run ins initial_world)) in
  0 <= _imgIdx f /\ (_imgIdx f < Z.of_nat (List.length _images) \/ _images = []) /\
  (pictureBox1_Image f = None \/
   pictureBox1_Image f = nth_error _images (Z.to_nat (_imgIdx f))) /\
  (_slideTimer f = true ->
     _slideshowOn f = true /\
     exists img, pictureBox1_Image f = Some img /\
                 nth_error _images (Z.to_nat (_imgIdx f)) = Some img) /\
  (_images = [] -> _slideTimer f = false /\ pictureBox1_Image f = None).
Proof.
  cbv zeta.
  assert (Hinit : shown_inv (form initial_world)).
  { unfold shown_inv. cbn. split; [lia|]. split.
    - intros Hne. destruct _images; [contradiction|cbn [List.length]; lia].
    - split; [left; reflexivity|discriminate]. }
  pose proof (run_shown ins initial_world Hinit) as (H0 & Hlt & Hpic & Htm).
  split; [exact H0|]. split.
  { destruct _images as [|x l] eqn:Himg; [right; reflexivity|].
    left. apply Hlt. discriminate. }
  split; [exact Hpic|]. split; [exact Htm|].
  intros Hnil. split.
  - destruct (_slideTimer _) eqn:E; [|reflexivity].
    destruct (Htm eq_refl) as (_ & img & _ & Hnth).
    rewrite Hnil in Hnth. destruct (Z.to_nat _); discriminate.
  - destruct Hpic as [Hpic|Hpic]; [exact Hpic|].
    rewrite Hpic, Hnil. destruct (Z.to_nat _); reflexivity.
Qed.


(** X10.  The timer steps through the photos in order and wraps to the
    first one: [k] ticks after index [i] the index is [(i + k) mod Count],
    and from the first tick on the picture is the photo at the index. *)
Theorem AdvancePhoto_cycles (f : Form1) (k : nat) :
  0 <= _imgIdx f < Z.of_nat (List.length _images) ->
  _imgIdx (Nat.iter k AdvancePhoto f) =
    (_imgIdx f + Z.of_nat k) mod Z.of_nat (List.length _images) /\
  ((0 < k)%nat ->
     pictureBox1_Image (Nat.iter k AdvancePhoto f) =
       nth_error _images (Z.to_nat (_imgIdx (Nat.iter k AdvancePhoto f))) /\
     pictureBox1_Image (Nat.iter k AdvancePhoto f) <> None).
Proof.
  intros H0.
  assert (Hne : _images <> []).
  { intros E. rewrite E in H0. cbn [List.length] in H0. lia. }
  assert (Hidx : forall j : nat,
            _imgIdx (Nat.iter j AdvancePhoto f) =
              (_imgIdx f + Z.of_nat j) mod Z.of_nat (List.length _images)).
  { induction j as [|j IH].
    - cbn [Nat.iter nat_rect]. rewrite Z.add_0_r, Z.mod_small; [reflexivity|].
      exact H0.
    - rewrite Nat.iter_succ, (AdvancePhoto_next _ Hne), IH.
      rewrite Z.rem_mod_nonneg.
      + rewrite Zplus_mod_idemp_l. f_equal. lia.
      + assert (Hb := Z.mod_pos_bound (_imgIdx f + Z.of_nat j)
                        (Z.of_nat (List.length _images))). lia.
      + lia. }
  split; [apply Hidx|]. intros Hk.
  destruct k as [|k]; [inversion Hk|].
  rewrite Nat.iter_succ.
  destruct (AdvancePhoto_index (Nat.iter k AdvancePhoto f))
    as (img & Hnth & Hshow); [|exact Hne|].
  { rewrite Hidx. apply Z.mod_pos_bound. lia. }
  rewrite Hshow, Hnth. split; [reflexivity|discriminate].
Qed.

(** *** The queue of the moving average *)

(** The last [k] elements of a list. *)
Definition lastn {A : Type} (k : nat) (l : list A) : list A :=
  skipn (List.length l - k) l.

(** The samples of a run that are numbers, oldest first. *)
Definition valid_samples (ins : list input) : list float :=
  flat_map (fun i => match i with
                     | Sample b _ _ => if PrimFloat.is_nan b then [] else [b]
                     | _ => []
                     end) ins.

Lemma tl_skipn {A : Type} (l : list A) :
  forall j : nat, tl (skipn j l) = skipn (S j) l.
Proof.
  induction l as [|x l IH]; intros [|j]; try reflexivity.
  apply (IH j).
Qed.

Lemma Smoothed_queue (cm : float) (hist : list float) :
  PrimFloat.is_nan cm = false ->
  snd (Smoothed cm (lastn 5 hist)) = lastn 5 (hist ++ [cm]).
Proof.
  intros Hnan. unfold Smoothed. rewrite Hnan. cbn [snd].
  unfold lastn, SmoothCount. rewrite length_skipn, length_app.
  cbn [List.length].
  destruct (Nat.le_gt_cases 5 (List.length hist)) as [Hfull|Hshort].
  - replace (List.length hist - (List.length hist - 5))%nat with 5%nat by lia.
    cbn [Nat.eqb]. rewrite tl_skipn.
    rewrite skipn_app.
    replace (List.length hist + 1 - 5)%nat with (S (List.length hist - 5)) by lia.
    replace (S (List.length hist - 5) - List.length hist)%nat with 0%nat by lia.
    reflexivity.
  - replace (List.length hist - 5)%nat with 0%nat by lia.
    replace (List.length hist + 1 - 5)%nat with 0%nat by lia.
    rewrite Nat.sub_0_r. cbn [skipn].
    destruct (List.length hist =? 5)%nat eqn:E; [|reflexivity].
    apply Nat.eqb_eq in E. lia.
Qed.

Lemma ingest_value_queue (b : float) (now1 now2 : DateTime) (f : Form1) :
  _last (fst (ingest_value b now1 now2 f)) =
    if PrimFloat.is_nan b then _last f else snd (Smoothed b (_last f)).
Proof.
  unfold ingest_value. destruct (PrimFloat.is_nan b); [reflexivity|].
  destruct (Smoothed b (_last f)) as [b' q]. cbn [snd].
  destruct (PrimFloat.is_nan b'); [reflexivity|].
  destruct (hysteresis_frame b' now1 now2 (set_last q f)) as [_ H].
  rewrite H. reflexivity.
Qed.

Lemma step_queue (i : input) (w : world) (hist : list float) :
  _last (form w) = lastn 5 hist ->
  _last (form (fst (step i w))) = lastn 5 (hist ++ valid_samples [i]).
Proof.
  intros Hq. destruct i as [b now1 now2| | |];
    cbn [step valid_samples flat_map]; rewrite ?app_nil_r.
  - pose proof (ingest_value_queue b now1 now2 (form w)) as H.
    destruct (ingest_value b now1 now2 (form w)) as [f1 a].
    cbn [fst form] in *. rewrite H.
    destruct (PrimFloat.is_nan b) eqn:Hnan.
    + cbn [app]. rewrite app_nil_r. exact Hq.
    + rewrite Hq. cbn [app]. apply Smoothed_queue. exact Hnan.
  - destruct (posted w) as [|a rest]; [exact Hq|].
    cbn [fst form]. rewrite <- Hq.
    destruct a; cbn [invoke]; unfold StartSlideshow, StopSlideshow;
      destruct (_slideshowOn (form w)); try reflexivity.
    destruct _images; reflexivity.
  - cbn [fst form]. rewrite <- Hq.
    destruct (_slideTimer (form w)); [|reflexivity].
    apply AdvancePhoto_keeps.
  - cbn [fst form]. rewrite <- Hq.
    unfold button2_Click, StopSlideshow.
    destruct (_slideshowOn (form w)); reflexivity.
Qed.

Lemma run_queue (ins : list input) :
  forall (w : world) (hist : list float),
    _last (form w) = lastn 5 hist ->
    _last (form (fst (run ins w))) = lastn 5 (hist ++ valid_samples ins).
Proof.
  induction ins as [|i ins IH]; intros w hist Hq; cbn [run].
  - cbn [valid_samples flat_map]. rewrite app_nil_r. exact Hq.
  - pose proof (step_queue i w hist Hq) as H1.
    destruct (step i w) as [w1 a]. cbn [fst] in H1.
    specialize (IH w1 _ H1).
    destruct (run ins w1) as [w2 emitted]. cbn [fst] in *.
    rewrite IH. rewrite <- app_assoc. unfold valid_samples.
    cbn [flat_map]. rewrite app_nil_r. reflexivity.
Qed.

(** X11.  The queue of the moving average.  After any run of the
    application from its start, the queue holds the last five samples that
    were numbers, oldest first (all of them while there are fewer than
    five): a sample that is NaN is not stored, and neither the slideshow
    commands, the timer nor a disconnect touch the queue. *)
Theorem queue_holds_last_five (ins : list input) :
  _last (form (fst (run ins initial_world))) = lastn 5 (valid_samples ins) /\
  (List.length (_last (form (fst (run ins initial_world)))) <= 5)%nat.
Proof.
  assert (H : _last (form (fst (run ins initial_world))) =
              lastn 5 (valid_samples ins)).
  { apply (run_queue ins initial_world []). reflexivity. }
  split; [exact H|]. rewrite H. unfold lastn. rewrite length_skipn. lia.
Qed.

(** *** Debounce over several samples *)

(** The state machine on successive smoothed values, the UI thread running
    nothing in between: the form afterwards and what each value posted. *)
Fixpoint conditioner (samples : list (float * DateTime * DateTime)) (f : Form1)
  : Form1 * list (option Action) :=
  match samples with
  | [] => (f, [])
  | (b, now1, now2) :: samples' =>
      let (f1, a) := hysteresis b now1 now2 f in
      let (f2, posts) := conditioner samples' f1 in
      (f2, a :: posts)
  end.

Lemma conditioner_low (samples : list (float * DateTime * DateTime)) :
  forall (f : Form1) (since : DateTime),
    Forall (fun s => (fst (fst s) <? StartThresh)%float = true) samples ->
    _belowStart f = since -> since <> MinValue ->
    conditioner samples f =
      (match samples with
       | [] => f
       | _ :: _ => set_timers since MinValue f
       end,
       map (fun s => if negb (_slideshowOn f) &&
                        (_startDebounce <=? snd s - since)
                     then Some InvokeStart else None) samples).
Proof.
  induction samples as [|[[b now1] now2] samples IH];
    intros f since Hall Hb Hne; [reflexivity|].
  inversion Hall as [|? ? Hlow Hrest]; subst. cbn [fst] in Hlow.
  cbn [conditioner]. unfold hysteresis at 1. rewrite Hlow.
  assert (Hkeep : (if _belowStart f =? MinValue then now1 else _belowStart f)
                  = _belowStart f).
  { destruct (_belowStart f =? MinValue) eqn:E; [|reflexivity].
    apply Z.eqb_eq in E. contradiction. }
  rewrite Hkeep.
  rewrite (IH (set_timers (_belowStart f) MinValue f) (_belowStart f) Hrest
              eq_refl Hne).
  cbn [map snd _slideshowOn set_timers]. f_equal.
  destruct samples; reflexivity.
Qed.

Lemma conditioner_high (samples : list (float * DateTime * DateTime)) :
  forall (f : Form1) (since : DateTime),
    Forall (fun s => (StopThresh <? fst (fst s))%float = true) samples ->
    _aboveStart f = since -> since <> MinValue ->
    conditioner samples f =
      (match samples with
       | [] => f
       | _ :: _ => set_timers MinValue since f
       end,
       map (fun s => if _slideshowOn f && (_stopDebounce <=? snd s - since)
                     then Some InvokeStop else None) samples).
Proof.
  induction samples as [|[[b now1] now2] samples IH];
    intros f since Hall Hb Hne; [reflexivity|].
  inversion Hall as [|? ? Hhigh Hrest]; subst. cbn [fst] in Hhigh.
  cbn [conditioner]. unfold hysteresis at 1.
  rewrite (above_stop_not_below_start b Hhigh), Hhigh.
  assert (Hkeep : (if _aboveStart f =? MinValue then now1 else _aboveStart f)
                  = _aboveStart f).
  { destruct (_aboveStart f =? MinValue) eqn:E; [|reflexivity].
    apply Z.eqb_eq in E. contradiction. }
  rewrite Hkeep.
  rewrite (IH (set_timers MinValue (_aboveStart f) f) (_aboveStart f) Hrest
              eq_refl Hne).
  cbn [map snd _slideshowOn set_timers]. f_equal.
  destruct samples; reflexivity.
Qed.

(** X12.  The debounce runs from the first sample of a streak.  Values
    that stay below 2.8, the first of them stamped [now1] when no streak was
    under way: [_belowStart] keeps that first stamp through the streak, and
    each value posts [StartSlideshow] exactly when the slideshow flag is off
    and the clock read for its test is at least 250 ms past that first
    stamp.  The same for values that stay above 3.5, with [_aboveStart],
    700 ms, the flag on and [StopSlideshow]. *)
Theorem debounce_runs_from_first_sample (b : float) (now1 now2 : DateTime)
    (samples : list (float * DateTime * DateTime)) (f : Form1) :
  now1 <> MinValue ->
  (_belowStart f = MinValue ->
   Forall (fun s => (fst (fst s) <? StartThresh)%float = true)
          ((b, now1, now2) :: samples) ->
   conditioner ((b, now1, now2) :: samples) f =
     (set_timers now1 MinValue f,
      map (fun s => if negb (_slideshowOn f) &&
                       (_startDebounce <=? snd s - now1)
                    then Some InvokeStart else None)
          ((b, now1, now2) :: samples))) /\
  (_aboveStart f = MinValue ->
   Forall (fun s => (StopThresh <? fst (fst s))%float = true)
          ((b, now1, now2) :: samples) ->
   conditioner ((b, now1, now2) :: samples) f =
     (set_timers MinValue now1 f,
      map (fun s => if _slideshowOn f && (_stopDebounce <=? snd s - now1)
                    then Some InvokeStop else None)
          ((b, now1, now2) :: samples))).
Proof.
  intros Hne. split; intros Hclear Hall;
    inversion Hall as [|? ? Hb Hrest]; subst; cbn [fst] in Hb;
    cbn [conditioner]; unfold hysteresis at 1.
  - rewrite Hb, Hclear. cbn [Z.eqb MinValue].
    change (MinValue =? MinValue) with true. cbn match.
    rewrite (conditioner_low samples (set_timers now1 MinValue f) now1 Hrest
               eq_refl Hne).
    cbn [map snd _slideshowOn set_timers]. f_equal.
    destruct samples; reflexivity.
  - rewrite (above_stop_not_below_start b Hb), Hb, Hclear.
    change (MinValue =? MinValue) with true. cbn match.
    rewrite (conditioner_high samples (set_timers MinValue now1 f) now1 Hrest
               eq_refl Hne).
    cbn [map snd _slideshowOn set_timers]. f_equal.
    destruct samples; reflexivity.
Qed.

(** *** Chunks and lines *)

Lemma list_ascii_of_string_app (s1 s2 : string) :
  list_ascii_of_string (s1 ++ s2) =
    list_ascii_of_string s1 ++ list_ascii_of_string s2.
Proof.
  induction s1 as [|c s1 IH]; [reflexivity|].
  cbn [String.append list_ascii_of_string app]. rewrite IH. reflexivity.
Qed.

Definition is_break (c : ascii) : bool :=
  Ascii.eqb c "010" || Ascii.eqb c "013".

(** The text ends with a line break. *)
Definition ends_line (s : list ascii) : Prop :=
  exists s' c, s = s' ++ [c] /\ is_break c = true.

Lemma split_lines_app (s1 : list ascii) :
  forall (cur s2 : list ascii),
    ends_line s1 ->
    split_lines cur (s1 ++ s2) = split_lines cur s1 ++ split_lines [] s2.
Proof.
  induction s1 as [|c s1 IH]; intros cur s2 (s' & b & Heq & Hb).
  - destruct s'; discriminate Heq.
  - cbn [app split_lines].
    destruct s1 as [|c1 s1].
    + assert (c = b).
      { destruct s' as [|x [|y s']]; cbn in Heq; congruence. }
      subst c. fold (is_break b). rewrite Hb.
      cbn [app split_lines]. destruct cur; reflexivity.
    + assert (Hend : ends_line (c1 :: s1)).
      { destruct s' as [|x s']; [discriminate Heq|].
        cbn [app] in Heq. injection Heq as _ Heq.
        exists s', b. auto. }
      destruct (Ascii.eqb c "010" || Ascii.eqb c "013").
      * destruct cur; rewrite (IH _ _ Hend); reflexivity.
      * apply (IH _ _ Hend).
Qed.

Lemma foreach_line_app (l1 : list string) :
  forall (l2 : list string) (k1 k2 : list (DateTime * DateTime)) (f : Form1),
    List.length k1 = List.length l1 ->
    foreach_line (l1 ++ l2) (k1 ++ k2) f =
      let (f1, p1) := foreach_line l1 k1 f in
      let (f2, p2) := foreach_line l2 k2 f1 in
      (f2, p1 ++ p2).
Proof.
  induction l1 as [|line l1 IH]; intros l2 k1 k2 f Hlen.
  - destruct k1; [|discriminate Hlen]. cbn [app foreach_line].
    destruct (foreach_line l2 k2 f). reflexivity.
  - destruct k1 as [|[now1 now2] k1]; [discriminate Hlen|].
    injection Hlen as Hlen. cbn [app foreach_line].
    destruct (ingest line now1 now2 f) as [f1 a].
    rewrite (IH l2 k1 k2 f1 Hlen).
    destruct (foreach_line l1 k1 f1) as [f2 p1].
    destruct (foreach_line l2 k2 f2) as [f3 p2].
    rewrite app_assoc. reflexivity.
Qed.

(** X15.  Chunks are read one by one, with no memory of an unfinished
    line.  When a chunk ends with a line break, reading it and then the
    next chunk is the same as reading both at once: the same form, the same
    delegates posted. *)
Theorem chunks_cut_at_line_ends (c1 c2 : string)
    (k1 k2 : list (DateTime * DateTime)) (f : Form1) :
  ends_line (list_ascii_of_string c1) ->
  List.length k1 = List.length (Split c1) ->
  Port_DataReceived (c1 ++ c2) (k1 ++ k2) f =
    let (f1, p1) := Port_DataReceived c1 k1 f in
    let (f2, p2) := Port_DataReceived c2 k2 f1 in
    (f2, p1 ++ p2).
Proof.
  intros Hend Hlen. unfold Port_DataReceived, Split in *.
  rewrite list_ascii_of_string_app, (split_lines_app _ _ _ Hend).
  apply foreach_line_app. exact Hlen.
Qed.

End Form.

(** ** Concrete lines

    The lines the firmware prints, read with [bRegex_ascii] and
    [TryParse_short]; the images stand for two files. *)

Definition LF : string := String "010" EmptyString.

Definition photos : list string := ["1.jpg"; "2.jpg"]%string.

(** 2025-08-05 14:13:20 UTC, in ticks. *)
Definition t0 : DateTime := 638900000000000000.

Definition seconds (n : Z) : TimeSpan := FromMilliseconds (1000 * n).

Lemma ParseDistanceB_examples :
  ParseDistanceB bRegex_ascii TryParse_short "A: 10.23 cm | B: 2.75 cm" = 2.75%float /\
  PrimFloat.is_nan (ParseDistanceB bRegex_ascii TryParse_short "A: 10.23 cm | B: —") = true /\
  PrimFloat.is_nan (ParseDistanceB bRegex_ascii TryParse_short "A: 10.23 cm") = true.
Proof. repeat split; reflexivity. Qed.

(** The firmware's line for two missing echoes, in a state with a filled
    queue, a running time stamp and the slideshow on. *)
Lemma unparsable_line_ignored_witness :
  let f := mkForm string 1 true true MinValue (t0 + seconds 2)
                  [4.0; 2.5]%float (Some "2.jpg"%string) in
  bRegex_ascii "A: — | B: —" = None /\
  ingest string bRegex_ascii TryParse_short "A: — | B: —"
         (t0 + seconds 4) (t0 + seconds 4) f = (f, None).
Proof.
  split; [reflexivity|].
  apply (unparsable_line_ignored string bRegex_ascii TryParse_short).
  left. reflexivity.
Defined.

(** The debounce of the start is inclusive at 250 ms. *)
Lemma start_debounce_boundary :
  let f := mkForm string 0 false false t0 MinValue [] None in
  snd (hysteresis string 2.5%float (t0 + 2499999) (t0 + 2499999) f) = None /\
  snd (hysteresis string 2.5%float (t0 + 2500000) (t0 + 2500000) f)
    = Some InvokeStart.
Proof. split; reflexivity. Qed.

(** C2 as stated fails.  The debounce has run for a second when a value
    below the threshold arrives: the call posts [StartSlideshow], and the
    slideshow flag is still off when it returns; a second value, one tick
    later, finds it off and posts [StartSlideshow] again.  The flag is on
    only after the UI thread has run the posted delegate. *)
Lemma start_posted_flag_still_off :
  let f := mkForm string 0 false false t0 MinValue [] None in
  let r1 := hysteresis string 2.5%float (t0 + seconds 1) (t0 + seconds 1) f in
  let r2 := hysteresis string 2.5%float (t0 + seconds 1 + 1)
              (t0 + seconds 1 + 1) (fst r1) in
  snd r1 = Some InvokeStart /\
  _slideshowOn string (fst r1) = false /\
  snd r2 = Some InvokeStart /\
  _slideshowOn string (invoke string photos InvokeStart (fst r1)) = true.
Proof. repeat split. Qed.

(** C3 as stated fails.  A first line below the threshold starts the
    debounce.  Two seconds later one call of [Port_DataReceived] gets a chunk
    of two such lines: the first posts [StartSlideshow]; the delegate runs
    on the UI thread, later, so [_slideshowOn] is still false when the second
    line is read, and [StartSlideshow] is posted again. *)
Lemma repeated_start_counterexample :
  let line := ("A: 9.10 cm | B: 1.00 cm" ++ LF)%string in
  let received := Port_DataReceived string bRegex_ascii TryParse_short in
  exists f1 f2,
    received line [(t0, t0)] (initial_form string) = (f1, []) /\
    received (line ++ line)%string
      [(t0 + seconds 2, t0 + seconds 2); (t0 + seconds 2 + 1, t0 + seconds 2 + 1)]
      f1 = (f2, [InvokeStart; InvokeStart]) /\
    ~ alternates (_slideshowOn string f1) [InvokeStart; InvokeStart].
Proof.
  cbv zeta. eexists _, _. split; [vm_compute; reflexivity|].
  split; [vm_compute; reflexivity|].
  cbn. intros (_ & Habs & _). discriminate Habs.
Qed.

(** The same on parsed values, the UI thread running nothing in between;
    with a [Dispatch] after the first start the second one is not posted. *)
Lemma repeated_start_on_values :
  snd (run string photos
         [Sample 1 t0 t0;
          Sample 1 (t0 + seconds 2) (t0 + seconds 2);
          Sample 1 (t0 + seconds 4) (t0 + seconds 4)]
         (initial_world string)) = [InvokeStart; InvokeStart] /\
  snd (run string photos
         [Sample 1 t0 t0;
          Sample 1 (t0 + seconds 2) (t0 + seconds 2);
          Dispatch;
          Sample 1 (t0 + seconds 4) (t0 + seconds 4)]
         (initial_world string)) = [InvokeStart].
Proof. split; vm_compute; reflexivity. Qed.

(** ** The report line of the firmware, read by the application *)

(** The text that the serial events of a trace put on the line, before the
    line end; [fmt] is [Serial.print(x, 2)] on a number. *)
Definition line_text (fmt : float -> list ascii) (tr : list Firmware.event)
  : list ascii :=
  flat_map (fun e => match e with
                     | Firmware.Serial_print s => list_ascii_of_string s
                     | Firmware.Serial_println s => list_ascii_of_string s
                     | Firmware.Serial_print_float x _ => fmt x
                     | _ => []
                     end) tr.

(** Not the letter that opens the pattern. *)
Definition not_B (c : ascii) : bool :=
  negb (Ascii.eqb c "B" || Ascii.eqb c "b").

(** Digits, a point, digits. *)
Definition decimal (s : list ascii) : Prop :=
  exists ds fs, s = ds ++ "."%char :: fs /\ ds <> [] /\ fs <> [] /\
                Forall (fun c => is_digit c = true) ds /\
                Forall (fun c => is_digit c = true) fs.

Lemma match_here_not_B (c : ascii) (s : list ascii) :
  not_B c = true -> match_here (c :: s) = None.
Proof.
  unfold not_B. intros H. apply negb_true_iff in H.
  unfold match_here. destruct s as [|colon rest]; [reflexivity|].
  rewrite H. reflexivity.
Qed.

Lemma search_skip (pre rest : list ascii) :
  Forall (fun c => not_B c = true) pre ->
  forall pw, search pw (pre ++ " "%char :: rest) = search false rest.
Proof.
  induction 1 as [|c l Hc _ IH]; intros pw; cbn [app search].
  - rewrite (match_here_not_B " " rest eq_refl). destruct pw; reflexivity.
  - rewrite (match_here_not_B c _ Hc). destruct pw; apply IH.
Qed.

Lemma span_all (p : ascii -> bool) (l rest : list ascii) :
  Forall (fun c => p c = true) l ->
  match rest with [] => True | c :: _ => p c = false end ->
  span p (l ++ rest) = (l, rest).
Proof.
  intros Hl Hrest. induction Hl as [|c l Hc _ IH]; cbn [app span].
  - destruct rest as [|c rest]; [reflexivity|].
    cbn [span]. rewrite Hrest. reflexivity.
  - rewrite Hc, IH. reflexivity.
Qed.

Lemma digit_is_plain (c : ascii) :
  is_digit c = true ->
  is_space c = false /\ (Ascii.eqb c "-" || Ascii.eqb c "+") = false /\
  not_B c = true.
Proof.
  destruct c as [[] [] [] [] [] [] [] []]; vm_compute; intros H;
    try discriminate H; repeat split.
Qed.

(** The pattern at [B: ] followed by a decimal and something that is not a
    digit. *)
Lemma match_here_decimal (ds fs tail : list ascii) :
  ds <> [] -> fs <> [] ->
  Forall (fun c => is_digit c = true) ds ->
  Forall (fun c => is_digit c = true) fs ->
  match tail with [] => True | c :: _ => is_digit c = false end ->
  match_here ("B"%char :: ":"%char :: " "%char :: ds ++ "."%char :: fs ++ tail)
    = Some (ds ++ "."%char :: fs).
Proof.
  intros Hds Hfs Dds Dfs Htail.
  destruct ds as [|d ds]; [contradiction|].
  destruct fs as [|e fs]; [contradiction|].
  inversion Dds as [|? ? Hd Dds']; subst.
  destruct (digit_is_plain d Hd) as (Hsp & Hsign & _).
  unfold match_here.
  change (Ascii.eqb "B" "B") with true. change (Ascii.eqb ":" ":") with true.
  cbn [orb andb].
  change (" "%char :: (d :: ds) ++ "."%char :: (e :: fs) ++ tail)
    with ([" "%char] ++ (d :: (ds ++ "."%char :: (e :: fs) ++ tail))).
  rewrite (span_all is_space [" "%char]); [|repeat constructor|exact Hsp].
  cbn [snd]. rewrite Hsign.
  change (d :: ds ++ "."%char :: (e :: fs) ++ tail)
    with ((d :: ds) ++ "."%char :: (e :: fs) ++ tail).
  rewrite (span_all is_digit (d :: ds)); [|exact Dds|reflexivity].
  change (Ascii.eqb "." ".") with true. cbn match.
  rewrite (span_all is_digit (e :: fs)); [|exact Dfs|exact Htail].
  reflexivity.
Qed.

Section ReportLine.

(** [Serial.print(x, 2)] on a number: the library's. *)
Variable fmt : float -> list ascii.

(** X13.  The application reads the value of sensor B, and only that, from
    the line the firmware reports.  When the report is due the firmware
    prints one line; if the sample of B is a number that prints as a
    decimal, the pattern [_bRegex] matches that line and its group 1 is the
    text of B, whatever sensor A gave (a number, or the dash of a missing
    echo); if the sample of B is NaN, the pattern does not match the line. *)
Theorem report_line_read_by_bRegex (dA dB : float) (c : Firmware.clocks)
    (d : Firmware.display) :
  2000 < Firmware.elapsed (Firmware.tPrintTest c) (Firmware.lastPrint d) ->
  (PrimFloat.is_nan dA = false ->
     Forall (fun ch => not_B ch = true) (fmt dA)) ->
  exists d' tr,
    Firmware.report dA dB c d = Some (d', tr) /\
    (PrimFloat.is_nan dB = false -> decimal (fmt dB) ->
       bRegex_ascii (string_of_list_ascii (line_text fmt tr)) =
         Some (string_of_list_ascii (fmt dB))) /\
    (PrimFloat.is_nan dB = true ->
       bRegex_ascii (string_of_list_ascii (line_text fmt tr)) = None).
Proof.
  intros Hdue HA. unfold Firmware.report.
  apply Z.ltb_lt in Hdue. rewrite Hdue.
  set (textA := if PrimFloat.is_nan dA
                then list_ascii_of_string "—"
                else fmt dA ++ list_ascii_of_string " cm").
  assert (HtA : Forall (fun ch => not_B ch = true) textA).
  { unfold textA. destruct (PrimFloat.is_nan dA).
    - repeat constructor.
    - apply Forall_app. split; [apply HA; reflexivity|repeat constructor]. }
  assert (Hline : exists tr,
            (Firmware.bind (Firmware.emit (Firmware.Serial_print "A: "))
               (fun _ => Firmware.bind (Firmware.printDistance dA)
               (fun _ => Firmware.bind (Firmware.emit (Firmware.Serial_print " | B: "))
               (fun _ => Firmware.bind (Firmware.printDistance dB)
               (fun _ => Firmware.bind (Firmware.emit (Firmware.Serial_println ""))
               (fun _ => Firmware.ret
                  (Firmware.mkDisplay (Firmware.val d) (Firmware.hue d)
                     (Firmware.sat d) (Firmware.lastBreathUpdate d)
                     (Firmware.tPrintDone c)))))))
             = Some (Firmware.mkDisplay (Firmware.val d) (Firmware.hue d)
                       (Firmware.sat d) (Firmware.lastBreathUpdate d)
                       (Firmware.tPrintDone c), tr)) /\
            line_text fmt tr =
              (list_ascii_of_string "A: " ++ textA ++ list_ascii_of_string " |") ++
              " "%char ::
              ("B"%char :: ":"%char :: " "%char ::
                 (if PrimFloat.is_nan dB then list_ascii_of_string "—"
                  else fmt dB ++ list_ascii_of_string " cm"))).
  { unfold Firmware.printDistance, textA.
    destruct (PrimFloat.is_nan dA), (PrimFloat.is_nan dB);
      eexists; (split; [reflexivity|]);
      cbn [line_text flat_map list_ascii_of_string app];
      rewrite ?app_nil_r, <- ?app_assoc; reflexivity. }
  destruct Hline as (tr & Hrun & Htext).
  exists (Firmware.mkDisplay (Firmware.val d) (Firmware.hue d)
            (Firmware.sat d) (Firmware.lastBreathUpdate d)
            (Firmware.tPrintDone c)), tr.
  split; [exact Hrun|].
  assert (Hpre : Forall (fun ch => not_B ch = true)
                   (list_ascii_of_string "A: " ++ textA ++
                    list_ascii_of_string " |")).
  { apply Forall_app. split; [repeat constructor|].
    apply Forall_app. split; [exact HtA|repeat constructor]. }
  unfold bRegex_ascii.
  rewrite list_ascii_of_string_of_list_ascii, Htext.
  rewrite (search_skip _ _ Hpre).
  split.
  - intros HB (ds & fs & Hfmt & Hds & Hfs & Dds & Dfs).
    rewrite HB, Hfmt. cbn [search].
    rewrite <- app_assoc. cbn [app].
    rewrite (match_here_decimal ds fs (list_ascii_of_string " cm") Hds Hfs Dds Dfs);
      [reflexivity|reflexivity].
  - intros HB. rewrite HB. reflexivity.
Qed.

End ReportLine.

(** Sensor A at 10.23 cm, sensor B at 2.75 cm. *)
Lemma report_line_read_by_bRegex_witness :
  let fmt := fun x : float =>
               if (x <? 5)%float then list_ascii_of_string "2.75"
               else list_ascii_of_string "10.23" in
  let c := Firmware.mkClocks 0 0 0 2001 2001 0 0 in
  exists d' tr,
    Firmware.report 10.23%float 2.75%float c Firmware.initial_display
      = Some (d', tr) /\
    (PrimFloat.is_nan 2.75%float = false -> decimal (fmt 2.75%float) ->
       bRegex_ascii (string_of_list_ascii (line_text fmt tr)) =
         Some (string_of_list_ascii (fmt 2.75%float))) /\
    (PrimFloat.is_nan 2.75%float = true ->
       bRegex_ascii (string_of_list_ascii (line_text fmt tr)) = None).
Proof.
  apply (report_line_read_by_bRegex
           (fun x : float =>
              if (x <? 5)%float then list_ascii_of_string "2.75"
              else list_ascii_of_string "10.23")
           10.23%float 2.75%float (Firmware.mkClocks 0 0 0 2001 2001 0 0)
           Firmware.initial_display).
  - reflexivity.
  - intros _. vm_compute. repeat constructor.
Defined.

(** Two photos, three ticks from the first: the second photo is shown. *)
Lemma AdvancePhoto_cycles_witness :
  let f := mkForm string 0 true true MinValue MinValue [] (Some "1.jpg"%string) in
  _imgIdx string (Nat.iter 3 (AdvancePhoto string photos) f) =
    (_imgIdx string f + Z.of_nat 3) mod Z.of_nat (List.length photos) /\
  ((0 < 3)%nat ->
     pictureBox1_Image string (Nat.iter 3 (AdvancePhoto string photos) f) =
       nth_error photos
         (Z.to_nat (_imgIdx string (Nat.iter 3 (AdvancePhoto string photos) f))) /\
     pictureBox1_Image string (Nat.iter 3 (AdvancePhoto string photos) f) <> None).
Proof.
  apply (AdvancePhoto_cycles string photos
           (mkForm string 0 true true MinValue MinValue [] (Some "1.jpg"%string)) 3).
  vm_compute. split; [discriminate|reflexivity].
Defined.

(** Three values below 2.8, 100 ms and 300 ms after the first: only the
    third posts the start. *)
Lemma debounce_runs_from_first_sample_witness :
  conditioner string
    [(2.5%float, t0, t0);
     (2.4%float, t0 + FromMilliseconds 100, t0 + FromMilliseconds 100);
     (2.6%float, t0 + FromMilliseconds 300, t0 + FromMilliseconds 300)]
    (initial_form string) =
  (set_timers string t0 MinValue (initial_form string),
   [None; None; Some InvokeStart]).
Proof.
  apply (debounce_runs_from_first_sample string 2.5%float t0 t0
           [(2.4%float, t0 + FromMilliseconds 100, t0 + FromMilliseconds 100);
            (2.6%float, t0 + FromMilliseconds 300, t0 + FromMilliseconds 300)]
           (initial_form string)).
  - discriminate.
  - reflexivity.
  - repeat constructor.
Defined.

(** Two report lines in two chunks, cut at the line end. *)
Lemma chunks_cut_at_line_ends_witness :
  let line := ("A: 9.10 cm | B: 1.00 cm" ++ LF)%string in
  let received := Port_DataReceived string bRegex_ascii TryParse_short in
  received (line ++ line)%string ([(t0, t0)] ++ [(t0 + seconds 2, t0 + seconds 2)])
           (initial_form string) =
    let (f1, p1) := received line [(t0, t0)] (initial_form string) in
    let (f2, p2) := received line [(t0 + seconds 2, t0 + seconds 2)] f1 in
    (f2, p1 ++ p2).
Proof.
  apply (chunks_cut_at_line_ends string bRegex_ascii TryParse_short
           ("A: 9.10 cm | B: 1.00 cm" ++ LF)%string
           ("A: 9.10 cm | B: 1.00 cm" ++ LF)%string).
  - exists (list_ascii_of_string "A: 9.10 cm | B: 1.00 cm"), "010"%char.
    split; reflexivity.
  - reflexivity.
Defined.

(** A chunk cut inside the number of sensor B: the first part is read as
    the value 1, where the whole line says 12.75. *)
Lemma chunk_cut_inside_number :
  ParseDistanceB bRegex_ascii TryParse_short "A: 9.10 cm | B: 12.75 cm"
    = 12.75%float /\
  map (ParseDistanceB bRegex_ascii TryParse_short) (Split "A: 9.10 cm | B: 1")
    = [1%float] /\
  map (fun l => PrimFloat.is_nan (ParseDistanceB bRegex_ascii TryParse_short l))
      (Split ("2.75 cm" ++ LF)) = [true].
Proof. repeat split; reflexivity. Qed.

End PhotoApp.

(* ================================================================== *)
(** * Part III: the breathing pulse without rounding *)
(* ================================================================== *)

(** The firmware computes the pulse of [showBreathingEffect] in 32-bit
    floating point with the C library's [exp] and [sin]; Part I takes that
    computation as a parameter.  This part evaluates the same expression
    over the real numbers, to show what the constants of the code give
    before any rounding: the pulse stays above [valueMin], and its peak
    passes [valueMax] by less than one millionth, which is below the
    resolution of a 32-bit float at 255. *)

Module ExactPulse.

Import Stdlib.Reals.Reals Stdlib.micromega.Lra.
Local Open Scope R_scope.

Definition pulseSpeed : R := 0.5.
Definition valueMin : R := 120.
Definition valueMax : R := 255.
Definition delta : R := (valueMax - valueMin) / 2.35040238.

(** [val] at clock [t] (in ms). *)
Definition pulse (t : R) : R :=
  valueMin + (exp (sin (pulseSpeed * t / 2000 * PI)) - 0.36787944) * delta.

Lemma inv_fact_S (n : nat) : / INR (fact (S n)) = / INR (fact n) / INR (S n).
Proof.
  rewrite fact_simpl, mult_INR. unfold Rdiv.
  rewrite Rinv_mult. apply Rmult_comm.
Qed.

(** [e] from below, by twelve terms of its series. *)
Lemma exp_1_lower : 2.71828182 < exp 1.
Proof.
  assert (Hsum : sum_f_R0 (fun i : nat => / INR (fact i) * 1 ^ i) 11 <= exp 1).
  { apply sum_incr.
    - unfold exp. destruct (exist_exp 1) as (l & Hl). exact Hl.
    - intros n. rewrite pow1, Rmult_1_r. left.
      apply Rinv_0_lt_compat, INR_fact_lt_0. }
  eapply Rlt_le_trans; [|exact Hsum].
  cbn [sum_f_R0]. rewrite !pow1, !Rmult_1_r.
  rewrite !inv_fact_S. change (fact 0) with 1%nat.
  rewrite !S_INR. change (INR 0) with 0. lra.
Qed.

Lemma inv_fact_decreasing : Un_decreasing (fun i : nat => / INR (fact i)).
Proof.
  intros n. rewrite inv_fact_S.
  pose proof (Rinv_0_lt_compat _ (INR_fact_lt_0 n)) as Hpos.
  assert (Hn : 1 <= INR (S n)) by (rewrite S_INR; pose proof (pos_INR n); lra).
  rewrite <- (Rmult_1_r (/ INR (fact n))) at 2. unfold Rdiv.
  apply Rmult_le_compat_l; [lra|].
  rewrite <- Rinv_1. apply Rinv_le_contravar; lra.
Qed.

Lemma inv_fact_cv : Un_cv (fun i : nat => / INR (fact i)) 0.
Proof.
  intros eps Heps. destruct (cv_speed_pow_fact 1 eps Heps) as (N & HN).
  exists N. intros n Hn. specialize (HN n Hn).
  rewrite pow1 in HN. unfold Rdiv in HN. rewrite Rmult_1_l in HN. exact HN.
Qed.

(** [1/e] from below, by fourteen terms of its alternating series. *)
Lemma exp_m1_lower : 0.367879441 < exp (-1).
Proof.
  assert (Hsum : sum_f_R0 (tg_alt (fun i : nat => / INR (fact i))) (S (2 * 6))
                 <= exp (-1)).
  { apply (alternated_series_ineq (fun i : nat => / INR (fact i)) (exp (-1)) 6).
    - exact inv_fact_decreasing.
    - exact inv_fact_cv.
    - unfold exp. destruct (exist_exp (-1)) as (l & Hl). cbn [proj1_sig].
      intros eps Heps. destruct (Hl eps Heps) as (N & HN).
      exists N. intros n Hn. specialize (HN n Hn).
      erewrite sum_eq; [exact HN|].
      intros i _. unfold tg_alt. apply Rmult_comm. }
  eapply Rlt_le_trans; [|exact Hsum].
  cbn [sum_f_R0 Nat.mul Nat.add]. unfold tg_alt. cbn [pow].
  rewrite !inv_fact_S. change (fact 0) with 1%nat.
  rewrite !S_INR. change (INR 0) with 0. lra.
Qed.

Lemma exp_1_upper : exp 1 < 2.71828183.
Proof.
  pose proof exp_m1_lower as Hm.
  assert (Hprod : exp 1 * exp (-1) = 1).
  { rewrite <- exp_plus. replace (1 + -1) with 0 by lra. apply exp_0. }
  pose proof (exp_pos 1) as Hpos.
  assert (Hlt : exp 1 * 0.367879441 < exp 1 * exp (-1))
    by (apply Rmult_lt_compat_l; assumption).
  lra.
Qed.

Lemma exp_sin_bounds (x : R) : exp (-1) <= exp (sin x) <= exp 1.
Proof.
  destruct (SIN_bound x) as [Hlo Hhi]. split.
  - destruct Hlo as [Hlo|Hlo]; [left; apply exp_increasing; exact Hlo|].
    rewrite Hlo. right. reflexivity.
  - destruct Hhi as [Hhi|Hhi]; [left; apply exp_increasing; exact Hhi|].
    rewrite Hhi. right. reflexivity.
Qed.

(** Without rounding the pulse lies strictly above 120 and below
    255.000001. *)
Lemma pulse_range (t : R) : 120 < pulse t < 255.000001.
Proof.
  unfold pulse, delta, valueMin, valueMax.
  destruct (exp_sin_bounds (pulseSpeed * t / 2000 * PI)) as [Hlo Hhi].
  pose proof exp_m1_lower. pose proof exp_1_upper.
  split; lra.
Qed.

(** Its peak, at 2000 ms, is above 255: [2.35040238] is [e - 1/e] cut after
    eight decimals, and [0.36787944] is [1/e] cut likewise. *)
Lemma pulse_peak : 255 < pulse 2000.
Proof.
  unfold pulse, delta, valueMin, valueMax, pulseSpeed.
  replace (0.5 * 2000 / 2000 * PI) with (PI / 2) by lra.
  rewrite sin_PI2. pose proof exp_1_lower. lra.
Qed.

End ExactPulse.
